(** * live-score: a shallow embedding of the score hub

    Two Go programs live in the repository:
    - [main.go] (package main): the WebSocket score server, with the shared
      [GameState], the [Hub] of clients, [Hub.broadcast], [handleMessages]
      and [serveWs];
    - the serverless variant (package handler): [Handler] and the
      simulator [broadcastScoreUpdates].

    Goroutines are modelled by an interleaving semantics whose atomic steps
    are the critical sections of the two mutexes and the single transport
    calls made outside them.  Everything a connection can observe is
    recorded in a trace of events.  A broadcast that may overlap the write
    [serveWs] makes outside the lock of the hub has a second outcome, the
    exit of the process. *)

From Stdlib Require Import ZArith Ascii String List Lia.
From stdpp Require Import gmap strings list pretty.

#[local] Set Warnings "-clear-no-such-hyp".
Local Open Scope Z_scope.

(** ** Go's [int] on the 64-bit targets of the server *)

Definition int_min : Z := - 2 ^ 63.
Definition int_max : Z := 2 ^ 63 - 1.

(** Signed overflow wraps around in Go. *)
Definition wrap (z : Z) : Z := (z + 2 ^ 63) mod 2 ^ 64 - 2 ^ 63.

(** A pointer ([*Client], [*websocket.Conn]) is used only for its identity. *)
Abbreviation Client := positive.

(** ** JSON values, as [encoding/json] scans them

    A payload is represented by what the scanner of [encoding/json] makes of
    its bytes: either they are not a JSON text, or they are a JSON value.
    String members are held decoded. *)

#[warnings="-register-all"]
Inductive JValue : Type :=
| JNull
| JBool (b : bool)
| JNumber (literal : string)
| JString (s : string)
| JArray (elems : list JValue)
| JObject (members : list (string * JValue)).

Inductive Payload : Type :=
| Malformed (raw : string)
| WellFormed (v : JValue).

(** ASCII upper-casing: the case folding [encoding/json] applies to object
    keys (no letter of "action" or "team" folds with a non-ASCII rune). *)
Definition upper_ascii (a : ascii) : ascii :=
  let n := nat_of_ascii a in
  if ((97 <=? n) && (n <=? 122))%nat then ascii_of_nat (n - 32) else a.

Fixpoint foldName (s : string) : string :=
  match s with
  | EmptyString => EmptyString
  | String a rest => String (upper_ascii a) (foldName rest)
  end.

(** A name between double quotes, as it stands in a JSON text. *)
Definition quoted (name : string) : string :=
  String "034"%char name +:+ String "034"%char EmptyString.

(** Every character of the string satisfies [P]. *)
Fixpoint all_chars (P : ascii -> Prop) (s : string) : Prop :=
  match s with
  | EmptyString => True
  | String a rest => P a ∧ all_chars P rest
  end.

(** A character that is neither of the two delimiters that follow a number
    in the serialized scores. *)
Definition numeric (a : ascii) : Prop :=
  a ≠ ","%char ∧ a ≠ "}"%char.

Module ScoreServer.

(** *** Data of main.go *)

(** [GameState]; its mutex is the atomicity of the steps below. *)
Record GameState : Type := { ScoreA : Z; ScoreB : Z }.

(** [Message] *)
Record Message : Type := { Action : string; Team : string }.

(** [Hub]: [clients] is a [map[*Client]bool] whose values are always [true],
    that is a set of clients. *)
Record Hub : Type := { clients : gset Client }.

(** [var gameState = GameState{ScoreA: 0, ScoreB: 0}] *)
Definition gameState0 : GameState := {| ScoreA := 0; ScoreB := 0 |}.

(** [var hub = Hub{clients: make(map[*Client]bool)}] *)
Definition hub0 : Hub := {| clients := ∅ |}.

(** *** [json.Unmarshal(payload, &msg)] for [msg : Message]

    The struct has two string fields tagged "action" and "team".  A key
    selects a field when it matches the tag exactly or up to case; other
    keys are skipped.  A string member is stored, [null] leaves the field
    as it is, any other member is an [UnmarshalTypeError].  [None] stands
    for a non-nil error (the caller then drops [msg]). *)

Inductive Field : Type := FAction | FTeam.

Definition field_of_key (key : string) : option Field :=
  if String.eqb (foldName key) "ACTION" then Some FAction
  else if String.eqb (foldName key) "TEAM" then Some FTeam
  else None.

Definition set_field (f : Field) (s : string) (msg : Message) : Message :=
  match f with
  | FAction => {| Action := s; Team := Team msg |}
  | FTeam => {| Action := Action msg; Team := s |}
  end.

Fixpoint decode_members (members : list (string * JValue)) (msg : Message)
  : option Message :=
  match members with
  | [] => Some msg
  | (key, v) :: rest =>
      match field_of_key key with
      | None => decode_members rest msg
      | Some f =>
          match v with
          | JString s => decode_members rest (set_field f s msg)
          | JNull => decode_members rest msg
          | _ => None
          end
      end
  end.

(** [var msg Message] is the zero value. *)
Definition zeroMessage : Message := {| Action := EmptyString; Team := EmptyString |}.

Definition Unmarshal (payload : Payload) : option Message :=
  match payload with
  | Malformed _ => None
  | WellFormed JNull => Some zeroMessage
  | WellFormed (JObject members) => decode_members members zeroMessage
  | WellFormed _ => None
  end.

(** *** [json.Marshal(gameState)]: the exported fields under their tags *)

Definition Marshal (gs : GameState) : string :=
  "{" +:+ quoted "scoreA" +:+ ":" +:+ pretty (ScoreA gs) +:+ ","
      +:+ quoted "scoreB" +:+ ":" +:+ pretty (ScoreB gs) +:+ "}".

(** *** The body of the [switch msg.Action] of [handleMessages]

    It runs between [gameState.mu.Lock()] and [gameState.mu.Unlock()]. *)

Definition applyMsg (msg : Message) (gs : GameState) : GameState :=
  if String.eqb (Action msg) "increment" then
    if String.eqb (Team msg) "A" then
      {| ScoreA := wrap (ScoreA gs + 1); ScoreB := ScoreB gs |}
    else if String.eqb (Team msg) "B" then
      {| ScoreA := ScoreA gs; ScoreB := wrap (ScoreB gs + 1) |}
    else gs
  else if String.eqb (Action msg) "decrement" then
    if String.eqb (Team msg) "A" && (0 <? ScoreA gs) then
      {| ScoreA := wrap (ScoreA gs - 1); ScoreB := ScoreB gs |}
    else if String.eqb (Team msg) "B" && (0 <? ScoreB gs) then
      {| ScoreA := ScoreA gs; ScoreB := wrap (ScoreB gs - 1) |}
    else gs
  else if String.eqb (Action msg) "reset" then
    {| ScoreA := 0; ScoreB := 0 |}
  else gs.

(** *** Events: what the transports, the registry and the log see *)

(** The places that write to or close a connection. *)
Inductive Site : Type :=
| InServeWs      (* serveWs: the initial state *)
| InBroadcast    (* Hub.broadcast *)
| InDeferred.    (* the deferred function of handleMessages *)

Inductive LogLine : Type :=
| LogUpgradeError
| LogConnected
| LogBroadcastError
| LogReadError
| LogUnmarshalError
| LogProcessed (msg : Message) (state : string)
| LogDisconnected.

Inductive Event : Type :=
| EvInsert (c : Client)                       (* hub.clients[c] = true *)
| EvDelete (c : Client)                       (* delete(hub.clients, c) *)
| EvWrite (site : Site) (c : Client) (message : string) (ok : bool)
                                              (* c.conn.WriteMessage; ok iff err == nil *)
| EvClose (site : Site) (c : Client)          (* c.conn.Close() *)
| EvLog (line : LogLine).

(** *** [Hub.broadcast]

    [order] is the order in which [range h.clients] produces the keys and
    [failing] the connections whose [WriteMessage] returns an error.  An
    entry deleted before it is reached is not produced. *)

Fixpoint range_clients (message : string) (failing : gset Client)
    (order : list Client) (cs : gset Client) : gset Client * list Event :=
  match order with
  | [] => (cs, [])
  | client :: rest =>
      if decide (client ∈ cs) then
        if decide (client ∈ failing) then
          let r := range_clients message failing rest (cs ∖ {[client]}) in
          (r.1, EvWrite InBroadcast client message false
                :: EvLog LogBroadcastError
                :: EvClose InBroadcast client
                :: EvDelete client :: r.2)
        else
          let r := range_clients message failing rest cs in
          (r.1, EvWrite InBroadcast client message true :: r.2)
      else range_clients message failing rest cs
  end.

Definition broadcast (message : string) (failing : gset Client)
    (order : list Client) (h : Hub) : Hub * list Event :=
  let r := range_clients message failing order (clients h) in
  ({| clients := r.1 |}, r.2).

(** *** Goroutines

    The program point of the goroutine that serves a client: [serveWs] up to
    [go handleMessages(client)], then [handleMessages]. *)

Inductive Pc : Type :=
| PcRegistered                          (* serveWs: client inserted, state not yet read *)
| PcInitial (initialState : string)     (* serveWs: initialState marshalled, not yet written *)
| PcReading                             (* handleMessages: at conn.ReadMessage() *)
| PcUpdated (msg : Message) (updatedState : string)
                                        (* handleMessages: state unlocked, before hub.broadcast *)
| PcClosing                             (* deferred function: client deleted, before conn.Close() *)
| PcDone.

Record Config : Type := {
  gameState : GameState;
  hub : Hub;
  pcs : gmap Client Pc;
  trace : list Event
}.

Definition init : Config :=
  {| gameState := gameState0; hub := hub0; pcs := ∅; trace := [] |}.

(** What the scheduler and the environment choose at each step.  A step is
    a critical section or one call of the transport, taken when it returns.
    The log line of a pass is recorded with the broadcast it reports:
    [log.Printf] itself runs after [h.mutex] is released (main.go:109), so
    the place of that line among the events of other goroutines carries no
    meaning.  The writes of a step are those of calls that return; see
    [outcomes] for a write that overlaps another. *)
Inductive Step : Type :=
| UpgradeFail                                     (* serveWs: upgrader.Upgrade fails *)
| Accept (c : Client)                             (* serveWs: upgrade, new client, hub insert *)
| ReadState (c : Client)                          (* serveWs: json.Marshal(gameState) under its lock *)
| WriteInitial (c : Client) (ok : bool)           (* serveWs: WriteMessage(initialState); go handleMessages *)
| Receive (c : Client) (payload : Payload)        (* handleMessages: ReadMessage returns a payload *)
| DoBroadcast (c : Client) (order : list Client) (failing : gset Client)
                                                  (* handleMessages: hub.broadcast(updatedState) *)
| ReadError (c : Client) (unexpected : bool)      (* handleMessages: ReadMessage fails; deferred delete *)
| CloseConn (c : Client).                         (* deferred function: conn.Close() *)

Definition at_pc (c : Client) (σ : Config) : option Pc := pcs σ !! c.

Definition goto (c : Client) (pc : Pc) (σ : Config) : Config :=
  {| gameState := gameState σ; hub := hub σ;
     pcs := <[c := pc]> (pcs σ); trace := trace σ |}.

Definition emit (evs : list Event) (σ : Config) : Config :=
  {| gameState := gameState σ; hub := hub σ;
     pcs := pcs σ; trace := trace σ ++ evs |}.

Definition set_hub (h : Hub) (σ : Config) : Config :=
  {| gameState := gameState σ; hub := h; pcs := pcs σ; trace := trace σ |}.

Definition set_gameState (gs : GameState) (σ : Config) : Config :=
  {| gameState := gs; hub := hub σ; pcs := pcs σ; trace := trace σ |}.

(** One pass of the [for] loop of [handleMessages] up to the unlock of the
    game state: decode, and on success update and marshal. *)
Definition receive (c : Client) (payload : Payload) (σ : Config) : Config :=
  match Unmarshal payload with
  | None => emit [EvLog LogUnmarshalError] σ
  | Some msg =>
      let gs := applyMsg msg (gameState σ) in
      goto c (PcUpdated msg (Marshal gs)) (set_gameState gs σ)
  end.

Definition step (σ : Config) (s : Step) : option Config :=
  match s with
  | UpgradeFail => Some (emit [EvLog LogUpgradeError] σ)
  | Accept c =>
      match at_pc c σ with
      | None =>
          Some (goto c PcRegistered
                  (emit [EvInsert c; EvLog LogConnected]
                     (set_hub {| clients := {[c]} ∪ clients (hub σ) |} σ)))
      | Some _ => None
      end
  | ReadState c =>
      match at_pc c σ with
      | Some PcRegistered => Some (goto c (PcInitial (Marshal (gameState σ))) σ)
      | _ => None
      end
  | WriteInitial c ok =>
      match at_pc c σ with
      | Some (PcInitial initialState) =>
          Some (goto c PcReading (emit [EvWrite InServeWs c initialState ok] σ))
      | _ => None
      end
  | Receive c payload =>
      match at_pc c σ with
      | Some PcReading => Some (receive c payload σ)
      | _ => None
      end
  | DoBroadcast c order failing =>
      match at_pc c σ with
      | Some (PcUpdated msg updatedState) =>
          if decide (order ≡ₚ elements (clients (hub σ))) then
            let r := broadcast updatedState failing order (hub σ) in
            Some (goto c PcReading
                    (emit (r.2 ++ [EvLog (LogProcessed msg updatedState)])
                       (set_hub r.1 σ)))
          else None
      | _ => None
      end
  | ReadError c unexpected =>
      match at_pc c σ with
      | Some PcReading =>
          Some (goto c PcClosing
                  (emit ((if unexpected then [EvLog LogReadError] else [])
                           ++ [EvDelete c])
                     (set_hub {| clients := clients (hub σ) ∖ {[c]} |} σ)))
      | _ => None
      end
  | CloseConn c =>
      match at_pc c σ with
      | Some PcClosing =>
          Some (goto c PcDone (emit [EvClose InDeferred c; EvLog LogDisconnected] σ))
      | _ => None
      end
  end.

(** A schedule is run from left to right; [None] when a step is not enabled. *)
Fixpoint run (σ : Config) (sched : list Step) : option Config :=
  match sched with
  | [] => Some σ
  | s :: rest =>
      match step σ s with
      | Some σ' => run σ' rest
      | None => None
      end
  end.

(** The messages a client has received: the payloads of the writes to it
    that succeeded, oldest first, each with the place that wrote it. *)
Definition is_received (c : Client) (ev : Event) : option (Site * string) :=
  match ev with
  | EvWrite site c' message true =>
      if decide (c' = c) then Some (site, message) else None
  | _ => None
  end.

Definition received (c : Client) (evs : list Event) : list (Site * string) :=
  omap (is_received c) evs.

(** The [Close] calls made on the connection of a client, by place. *)
Definition is_close (c : Client) (ev : Event) : option Site :=
  match ev with
  | EvClose site c' => if decide (c' = c) then Some site else None
  | _ => None
  end.

Definition closes (c : Client) (evs : list Event) : list Site :=
  omap (is_close c) evs.

(** The states after each command of a sequence applied in turn. *)
Fixpoint snapshots (cmds : list Message) (gs : GameState) : list GameState :=
  match cmds with
  | [] => []
  | msg :: rest => applyMsg msg gs :: snapshots rest (applyMsg msg gs)
  end.

(** *** Vocabulary for the properties *)

Definition nonneg (gs : GameState) : Prop := 0 <= ScoreA gs ∧ 0 <= ScoreB gs.

(** Both scores are non-negative after each command of the sequence. *)
Definition scores_nonneg (cmds : list Message) : Prop :=
  Forall nonneg (snapshots cmds gameState0).

Definition bounded (n : Z) (gs : GameState) : Prop :=
  0 <= ScoreA gs <= n ∧ 0 <= ScoreB gs <= n.

Definition incA : Message := {| Action := "increment"; Team := "A" |}.

Definition cmds_four : list Message :=
  [incA; {| Action := "decrement"; Team := "B" |};
   {| Action := "reset"; Team := EmptyString |};
   {| Action := "decrement"; Team := "A" |}].

(** The command a step decodes, if any, and the commands of a schedule in
    the order in which they are applied to the shared state. *)
Definition decoded (s : Step) : option Message :=
  match s with
  | Receive _ payload => Unmarshal payload
  | _ => None
  end.

Definition commands (sched : list Step) : list Message := omap decoded sched.

(** What one iteration of the loop of [Hub.broadcast] does to the client it
    has reached. *)
Definition visit (message : string) (failing : gset Client) (c : Client)
  : list Event :=
  if decide (c ∈ failing) then
    [EvWrite InBroadcast c message false; EvLog LogBroadcastError;
     EvClose InBroadcast c; EvDelete c]
  else [EvWrite InBroadcast c message true].

(** No broadcast writes to the client among the events. *)
Definition quiet (c : Client) (evs : list Event) : Prop :=
  ∀ m ok, EvWrite InBroadcast c m ok ∉ evs.

(** The registry is left alone until the scan is over: no write of the
    broadcast comes after a removal. *)
Definition removals_after_scan (evs : list Event) : Prop :=
  ∀ c t1 t2, evs = t1 ++ EvDelete c :: t2 ->
    ∀ c' m ok, EvWrite InBroadcast c' m ok ∉ t2.

(** The events after the first removal of a client from the registry. *)
Fixpoint after_delete (c : Client) (evs : list Event) : list Event :=
  match evs with
  | [] => []
  | EvDelete c' :: rest => if decide (c' = c) then rest else after_delete c rest
  | _ :: rest => after_delete c rest
  end.


(** The step function seen as a relation, one rule per branch. *)
Inductive step_spec (σ : Config) : Step -> Config -> Prop :=
| spec_UpgradeFail :
    step_spec σ UpgradeFail (emit [EvLog LogUpgradeError] σ)
| spec_Accept c :
    at_pc c σ = None ->
    step_spec σ (Accept c)
      (goto c PcRegistered
         (emit [EvInsert c; EvLog LogConnected]
            (set_hub {| clients := {[c]} ∪ clients (hub σ) |} σ)))
| spec_ReadState c :
    at_pc c σ = Some PcRegistered ->
    step_spec σ (ReadState c) (goto c (PcInitial (Marshal (gameState σ))) σ)
| spec_WriteInitial c ok initialState :
    at_pc c σ = Some (PcInitial initialState) ->
    step_spec σ (WriteInitial c ok)
      (goto c PcReading (emit [EvWrite InServeWs c initialState ok] σ))
| spec_Receive_error c payload :
    at_pc c σ = Some PcReading ->
    Unmarshal payload = None ->
    step_spec σ (Receive c payload) (emit [EvLog LogUnmarshalError] σ)
| spec_Receive c payload msg :
    at_pc c σ = Some PcReading ->
    Unmarshal payload = Some msg ->
    step_spec σ (Receive c payload)
      (goto c (PcUpdated msg (Marshal (applyMsg msg (gameState σ))))
         (set_gameState (applyMsg msg (gameState σ)) σ))
| spec_DoBroadcast c order failing msg updatedState :
    at_pc c σ = Some (PcUpdated msg updatedState) ->
    order ≡ₚ elements (clients (hub σ)) ->
    step_spec σ (DoBroadcast c order failing)
      (goto c PcReading
         (emit ((order ≫= visit updatedState failing)
                  ++ [EvLog (LogProcessed msg updatedState)])
            (set_hub {| clients := clients (hub σ) ∖ failing |} σ)))
| spec_ReadError c unexpected :
    at_pc c σ = Some PcReading ->
    step_spec σ (ReadError c unexpected)
      (goto c PcClosing
         (emit ((if unexpected then [EvLog LogReadError] else []) ++ [EvDelete c])
            (set_hub {| clients := clients (hub σ) ∖ {[c]} |} σ)))
| spec_CloseConn c :
    at_pc c σ = Some PcClosing ->
    step_spec σ (CloseConn c)
      (goto c PcDone (emit [EvClose InDeferred c; EvLog LogDisconnected] σ)).

(** The configurations of the executions from [init]. *)
Inductive reachable : Config -> Prop :=
| reachable_init : reachable init
| reachable_step σ s σ' : reachable σ -> step σ s = Some σ' -> reachable σ'.

(** The goroutine of the client has not left the read loop. *)
Definition live (pc : option Pc) : Prop :=
  match pc with
  | Some PcRegistered | Some (PcInitial _) | Some PcReading
  | Some (PcUpdated _ _) => True
  | _ => False
  end.

(** [serveWs] has returned for the client. *)
Definition served (pc : option Pc) : Prop :=
  match pc with
  | Some PcReading | Some (PcUpdated _ _) | Some PcClosing | Some PcDone => True
  | _ => False
  end.


Definition mentions (c : Client) (ev : Event) : Prop :=
  match ev with
  | EvInsert c' | EvDelete c' | EvWrite _ c' _ _ | EvClose _ c' => c' = c
  | EvLog _ => False
  end.

(** A client that was accepted and is no longer in the registry. *)
Definition gone (c : Client) (σ : Config) : Prop :=
  is_Some (at_pc c σ) ∧ c ∉ clients (hub σ).

(** The members of a JSON object that select a field of [Message] are
    strings or [null]. *)
Definition typed_members (members : list (string * JValue)) : Prop :=
  ∀ key v, (key, v) ∈ members -> is_Some (field_of_key key) ->
    v = JNull ∨ ∃ s, v = JString s.

(** The string a field takes from the members of an object: that of the
    last string member that selects it, the given default when none does. *)
Fixpoint member_string (f : Field) (members : list (string * JValue))
    (default : string) : string :=
  match members with
  | [] => default
  | (key, JString s) :: rest =>
      match field_of_key key, f with
      | Some FAction, FAction | Some FTeam, FTeam => member_string f rest s
      | _, _ => member_string f rest default
      end
  | _ :: rest => member_string f rest default
  end.

(** The members of the object decode to the strings they give to action
    and team; a member of another name changes nothing; the object without
    members is the zero [Message], a command that changes nothing. *)
Definition decodes_leniently (members : list (string * JValue)) : Prop :=
  Unmarshal (WellFormed (JObject members))
  = Some {| Action := member_string FAction members EmptyString;
            Team := member_string FTeam members EmptyString |}
  ∧ (∀ key v, field_of_key key = None →
       Unmarshal (WellFormed (JObject ((key, v) :: members)))
       = Unmarshal (WellFormed (JObject members)))
  ∧ Unmarshal (WellFormed (JObject [])) = Some zeroMessage
  ∧ ∀ gs, applyMsg zeroMessage gs = gs.

(** One pass of the loop of [handleMessages] on a payload that decodes to
    [msg]: the loop goes on, the state after the pass is [gs], and the
    serialization of [gs] is written to every client of the registry. *)
Definition broadcasts_state (c : Client) (payload : Payload) (msg : Message)
    (order : list Client) (failing : gset Client) (σ : Config)
    (gs : GameState) : Prop :=
  ∃ σ', run σ [Receive c payload; DoBroadcast c order failing] = Some σ'
    ∧ gameState σ' = gs
    ∧ at_pc c σ' = Some PcReading
    ∧ trace σ' = trace σ ++ (order ≫= visit (Marshal gs) failing)
                   ++ [EvLog (LogProcessed msg (Marshal gs))]
    ∧ ∀ c', c' ∈ clients (hub σ) →
        EvWrite InBroadcast c' (Marshal gs) (bool_decide (c' ∉ failing))
          ∈ trace σ'.

(** A broadcast by the goroutine of [k] in which the write to [c] fails:
    [c] is closed and removed, the other clients receive the payload, and
    no later broadcast writes to [c]. *)
Definition isolates_failure (σ : Config) (k : Client) (failing : gset Client)
    (σ' : Config) (c : Client) : Prop :=
  ∃ msg payload evs,
    at_pc k σ = Some (PcUpdated msg payload)
    ∧ trace σ' = trace σ ++ evs
    ∧ EvWrite InBroadcast c payload false ∈ evs
    ∧ EvClose InBroadcast c ∈ evs
    ∧ (c ∉ clients (hub σ'))
    ∧ (∀ c', c' ∈ clients (hub σ) → c' ∉ failing →
         received c' evs = [(InBroadcast, payload)] ∧ c' ∈ clients (hub σ'))
    ∧ (∀ sched σ'', run σ' sched = Some σ'' →
         (c ∉ clients (hub σ''))
         ∧ ∃ later, trace σ'' = trace σ' ++ later ∧ quiet c later).

(** All the messages come from broadcasts. *)
Definition from_broadcast (ms : list (Site * string)) : Prop :=
  Forall (λ m, m.1 = InBroadcast) ms.

(** The first message the client has received, if any, is the
    serialization of [gs] written by [serveWs]. *)
Definition snapshot_first (c : Client) (gs : GameState) (σ : Config) : Prop :=
  ∀ first rest, received c (trace σ) = first :: rest →
    first = (InServeWs, Marshal gs).

(** [serveWs] runs for a new client [c] without any other goroutine in
    between: the only message [c] has then received is the serialization of
    the state at its registration (when the write succeeded), and whatever
    it receives later comes from a broadcast. *)
Definition initial_state_first (σ : Config) (c : Client) (ok : bool) : Prop :=
  ∃ σ1, run σ [Accept c; ReadState c; WriteInitial c ok] = Some σ1
    ∧ received c (trace σ1)
      = (if ok then [(InServeWs, Marshal (gameState σ))] else [])
    ∧ ∀ sched' σ', run σ1 sched' = Some σ' →
        ∃ rest, received c (trace σ') = received c (trace σ1) ++ rest
                ∧ from_broadcast rest.

(** *** Concrete inputs *)

(** The payload [{"action": action, "team": team}]. *)
Definition command (action team : string) : Payload :=
  WellFormed (JObject [("action", JString action); ("team", JString team)]).

Definition payload_incA : Payload := command "increment" "A".

(** One client in its read loop, scores 0 and 0. *)
Definition config_one : Config :=
  {| gameState := gameState0; hub := {| clients := {[1%positive]} |};
     pcs := {[1%positive := PcReading]}; trace := [] |}.

Definition hub_two : Hub := {| clients := {[1%positive; 2%positive]} |}.

(** Two clients connect, then the first one sends an increment. *)
Definition sched_two : list Step :=
  [Accept 1; ReadState 1; WriteInitial 1 true;
   Accept 2; ReadState 2; WriteInitial 2 true;
   Receive 1 payload_incA].


(** Client 2 is registered, a broadcast fails to write to it and removes
    it, and only then does [serveWs] write the initial state to it. *)
Definition sched_write_after_removal : list Step :=
  [Accept 1; ReadState 1; WriteInitial 1 true; Accept 2;
   Receive 1 payload_incA;
   DoBroadcast 1 [2%positive; 1%positive] {[2%positive]};
   ReadState 2; WriteInitial 2 false].

(** Client 2 is registered and a broadcast of client 1 runs before
    [serveWs] reads and writes the initial state of client 2. *)
Definition sched_registered_then_broadcast : list Step :=
  [Accept 2; Receive 1 payload_incA;
   DoBroadcast 1 [2%positive; 1%positive] ∅;
   ReadState 2; WriteInitial 2 true].

(** *** Vocabulary for further properties *)

(** The score of team A or, for any other name, of team B. *)
Definition score (team : string) (gs : GameState) : Z :=
  if String.eqb team "A" then ScoreA gs else ScoreB gs.

(** The state with the score of that team replaced. *)
Definition with_score (team : string) (v : Z) (gs : GameState) : GameState :=
  if String.eqb team "A" then {| ScoreA := v; ScoreB := ScoreB gs |}
  else {| ScoreA := ScoreA gs; ScoreB := v |}.

(** The number of commands of the list that name the team. *)
Definition increments (team : string) (cmds : list Message) : nat :=
  length (filter (λ m, Team m = team) cmds).

Definition is_increment (m : Message) : Prop :=
  Action m = "increment" ∧ (Team m = "A" ∨ Team m = "B").

Definition is_heard (c : Client) (ev : Event) : option string :=
  match ev with
  | EvWrite InBroadcast c' message true =>
      if decide (c' = c) then Some message else None
  | _ => None
  end.

(** The broadcast payloads a client has received, oldest first. *)
Definition heard (c : Client) (evs : list Event) : list string :=
  omap (is_heard c) evs.

(** The states the shared state goes through in an execution. *)
Definition states (sched : list Step) : list GameState :=
  gameState0 :: snapshots (commands sched) gameState0.

(** The string is the serialization of one of the states of [H]. *)
Definition serializes (H : GameState -> Prop) (p : string) : Prop :=
  ∃ gs, H gs ∧ p = Marshal gs.

(** The state, the serializations the goroutines hold and those written so
    far all come from [H]. *)
Definition honest (H : GameState -> Prop) (σ : Config) : Prop :=
  H (gameState σ)
  ∧ (∀ c p, at_pc c σ = Some (PcInitial p) → serializes H p)
  ∧ (∀ c msg p, at_pc c σ = Some (PcUpdated msg p) → serializes H p)
  ∧ (∀ site c p ok, EvWrite site c p ok ∈ trace σ → serializes H p).

Definition is_initial (c : Client) (ev : Event) : option (string * bool) :=
  match ev with
  | EvWrite InServeWs c' message ok =>
      if decide (c' = c) then Some (message, ok) else None
  | _ => None
  end.

(** The writes of the initial state to a client, with their outcome. *)
Definition initial_writes (c : Client) (evs : list Event)
  : list (string * bool) :=
  omap (is_initial c) evs.

(** [serveWs] has started the read loop of the client. *)
Definition has_started (pc : option Pc) : bool :=
  match pc with
  | Some PcReading | Some (PcUpdated _ _) | Some PcClosing | Some PcDone => true
  | _ => false
  end.

(** *** More concrete inputs *)

(** One client in its read loop, scores 2 and 5. *)
Definition config_scored : Config :=
  {| gameState := {| ScoreA := 2; ScoreB := 5 |};
     hub := {| clients := {[1%positive]} |};
     pcs := {[1%positive := PcReading]}; trace := [] |}.

(** Two clients connect and send three increments, whose broadcasts are
    delayed and interleaved. *)
Definition sched_three_increments : list Step :=
  [Accept 1; ReadState 1; WriteInitial 1 true;
   Accept 2; ReadState 2; WriteInitial 2 true;
   Receive 1 (command "increment" "A");
   Receive 2 (command "increment" "B");
   DoBroadcast 2 [2%positive; 1%positive] ∅;
   DoBroadcast 1 [2%positive; 1%positive] ∅;
   Receive 2 (command "increment" "A");
   DoBroadcast 2 [2%positive; 1%positive] ∅].

(** After [sched_two]: the pending broadcast of client 1, then a command
    of client 2 and its broadcast. *)
Definition sched_two_broadcasts : list Step :=
  [DoBroadcast 1 [2%positive; 1%positive] ∅;
   Receive 2 (command "decrement" "A");
   DoBroadcast 2 [1%positive; 2%positive] ∅].

(** *** Overlapping writes

    A connection of gorilla/websocket supports one writer at a time: its
    documentation makes the application responsible for that, and a
    [WriteMessage] that overlaps another one on the same connection panics
    (concurrent write to websocket connection).  [Hub.broadcast] writes
    under [h.mutex] (main.go:46-49).  [serveWs] writes the initial state
    under no lock (main.go:130), to a client it has already put in the
    registry (main.go:121): from [ReadState] to [WriteInitial] that call may
    be in flight, and a broadcast that runs then writes to the same
    connection.  The panic of the broadcast is raised in [handleMessages], a
    goroutine that recovers nothing, so the process exits.

    [step] gives the configuration after the calls have returned; the
    outcomes below add the exit. *)

(** [serveWs] holds the initial state of the client and has not returned
    from writing it. *)
Definition write_in_flight (pc : option Pc) : bool :=
  match pc with
  | Some (PcInitial _) => true
  | _ => false
  end.

(** The step is a broadcast and [serveWs] may be writing to a client of the
    registry: two writes to one connection may overlap. *)
Definition may_panic (σ : Config) (s : Step) : bool :=
  match s with
  | DoBroadcast _ _ _ =>
      existsb (λ c, write_in_flight (at_pc c σ)) (elements (clients (hub σ)))
  | _ => false
  end.

Inductive Outcome : Type :=
| Completed (σ' : Config)     (* the calls of the step have returned *)
| Panicked.                   (* concurrent write: the process has exited *)

(** What an enabled step may lead to. *)
Definition outcomes (σ : Config) (s : Step) : list Outcome :=
  match step σ s with
  | Some σ' => Completed σ' :: (if may_panic σ s then [Panicked] else [])
  | None => []
  end.

(** Whatever the broadcast by the goroutine of [k] leads to, the failure of
    the write to [c] is isolated. *)
Definition always_isolates_failure (σ : Config) (k : Client)
    (order : list Client) (failing : gset Client) (c : Client) : Prop :=
  ∀ o, o ∈ outcomes σ (DoBroadcast k order failing) →
    ∃ σ', o = Completed σ' ∧ isolates_failure σ k failing σ' c.

(** No broadcast of the schedule, run from [σ], may overlap a write of
    [serveWs]. *)
Fixpoint calm (σ : Config) (sched : list Step) : bool :=
  match sched with
  | [] => true
  | s :: rest =>
      negb (may_panic σ s)
      && match step σ s with
         | Some σ' => calm σ' rest
         | None => true
         end
  end.

(** Clients 1 and 3 are in their read loops; client 2 is registered and
    [serveWs] holds its initial state, not yet written; client 1 has sent
    an increment, which it is about to broadcast. *)
Definition sched_overlap : list Step :=
  [Accept 1; ReadState 1; WriteInitial 1 true;
   Accept 3; ReadState 3; WriteInitial 3 true;
   Accept 2; ReadState 2;
   Receive 1 payload_incA].

(** *** The broadcasts of a schedule *)

(** The payload the step broadcasts, if it is a broadcast. *)
Definition broadcast_payload (σ : Config) (s : Step) : list string :=
  match s with
  | DoBroadcast c _ _ =>
      match at_pc c σ with
      | Some (PcUpdated _ updatedState) => [updatedState]
      | _ => []
      end
  | _ => []
  end.

(** The payloads of the broadcasts of a schedule run from [σ], in the order
    in which they hold [h.mutex]. *)
Fixpoint broadcasts (σ : Config) (sched : list Step) : list string :=
  match sched with
  | [] => []
  | s :: rest =>
      broadcast_payload σ s
      ++ match step σ s with
         | Some σ' => broadcasts σ' rest
         | None => []
         end
  end.

(** *** Members of the wrong type *)

(** A JSON value that a Go string does not take. *)
Definition mistyped (v : JValue) : Prop :=
  match v with
  | JBool _ | JNumber _ | JArray _ | JObject _ => True
  | JNull | JString _ => False
  end.

(** A member of the object selects a field of [Message] and gives it a
    number, a boolean, an array or an object. *)
Definition ill_typed_members (members : list (string * JValue)) : Prop :=
  ∃ key v, (key, v) ∈ members ∧ is_Some (field_of_key key) ∧ mistyped v.

(** The [Message] the members of an object give. *)
Definition member_message (members : list (string * JValue)) : Message :=
  {| Action := member_string FAction members EmptyString;
     Team := member_string FTeam members EmptyString |}.

End ScoreServer.

Module Serverless.

(** *** Data of the serverless variant (package handler) *)

(** The locals [homeScore] and [awayScore] of one running
    [broadcastScoreUpdates] goroutine. *)
Record Simulator : Type := { homeScore : Z; awayScore : Z }.

Inductive LogLine : Type :=
| LogUpgradeError
| LogConnected
| LogReadError
| LogWriteError.

Inductive Event : Type :=
| EvInsert (c : Client)                          (* clients[conn] = true *)
| EvDelete (c : Client)                          (* delete(clients, conn) *)
| EvWrite (c : Client) (message : string) (ok : bool)
| EvClose (c : Client)
| EvLog (line : LogLine).

(** The program point of a [Handler] call after the upgrade. *)
Inductive Pc : Type :=
| PcReading          (* in the read loop *)
| PcClosing          (* after the delete and the break, before the deferred conn.Close() *)
| PcDone.

(** [clients] is the package-level [map[*websocket.Conn]bool]; [simulators]
    holds one entry per [broadcastScoreUpdates] goroutine started so far
    (its loop over [ticker.C] has no exit). *)
Record Config : Type := {
  clients : gset Client;
  pcs : gmap Client Pc;
  simulators : list Simulator;
  trace : list Event
}.

Definition init : Config :=
  {| clients := ∅; pcs := ∅; simulators := []; trace := [] |}.

(** [fmt.Sprintf] of the score line. *)
Definition score_line (sim : Simulator) : string :=
  "{" +:+ quoted "home" +:+ ": " +:+ pretty (homeScore sim) +:+ ", "
      +:+ quoted "away" +:+ ": " +:+ pretty (awayScore sim) +:+ "}".

(** The update of one tick; [unix] is [time.Now().Unix()] and [%] truncates. *)
Definition tick (unix : Z) (sim : Simulator) : Simulator :=
  if Z.rem unix 2 =? 0 then
    {| homeScore := wrap (homeScore sim + 1); awayScore := awayScore sim |}
  else
    {| homeScore := homeScore sim; awayScore := wrap (awayScore sim + 1) |}.

(** The [for client := range clients] loop of [broadcastScoreUpdates]. *)
Fixpoint range_clients (score : string) (failing : gset Client)
    (order : list Client) (cs : gset Client) : gset Client * list Event :=
  match order with
  | [] => (cs, [])
  | client :: rest =>
      if decide (client ∈ cs) then
        if decide (client ∈ failing) then
          let r := range_clients score failing rest (cs ∖ {[client]}) in
          (r.1, EvWrite client score false
                :: EvLog LogWriteError
                :: EvClose client
                :: EvDelete client :: r.2)
        else
          let r := range_clients score failing rest cs in
          (r.1, EvWrite client score true :: r.2)
      else range_clients score failing rest cs
  end.

Inductive Step : Type :=
| UpgradeFail
| Accept (c : Client)            (* upgrade, insert, go broadcastScoreUpdates() *)
| Receive (c : Client)           (* ReadMessage returns a message, which is dropped *)
| ReadError (c : Client)         (* ReadMessage fails: log, delete, break *)
| CloseConn (c : Client)         (* the deferred conn.Close() *)
| Tick (i : nat) (unix : Z) (order : list Client) (failing : gset Client).
                                 (* simulator i receives from ticker.C *)

Definition step (σ : Config) (s : Step) : option Config :=
  match s with
  | UpgradeFail =>
      Some {| clients := clients σ; pcs := pcs σ; simulators := simulators σ;
              trace := trace σ ++ [EvLog LogUpgradeError] |}
  | Accept c =>
      match pcs σ !! c with
      | None =>
          Some {| clients := {[c]} ∪ clients σ;
                  pcs := <[c := PcReading]> (pcs σ);
                  simulators := simulators σ ++ [{| homeScore := 0; awayScore := 0 |}];
                  trace := trace σ ++ [EvInsert c; EvLog LogConnected] |}
      | Some _ => None
      end
  | Receive c =>
      match pcs σ !! c with
      | Some PcReading => Some σ
      | _ => None
      end
  | ReadError c =>
      match pcs σ !! c with
      | Some PcReading =>
          Some {| clients := clients σ ∖ {[c]};
                  pcs := <[c := PcClosing]> (pcs σ);
                  simulators := simulators σ;
                  trace := trace σ ++ [EvLog LogReadError; EvDelete c] |}
      | _ => None
      end
  | CloseConn c =>
      match pcs σ !! c with
      | Some PcClosing =>
          Some {| clients := clients σ;
                  pcs := <[c := PcDone]> (pcs σ);
                  simulators := simulators σ;
                  trace := trace σ ++ [EvClose c] |}
      | _ => None
      end
  | Tick i unix order failing =>
      match simulators σ !! i with
      | Some sim =>
          if decide (order ≡ₚ elements (clients σ)) then
            let sim' := tick unix sim in
            let r := range_clients (score_line sim') failing order (clients σ) in
            Some {| clients := r.1;
                    pcs := pcs σ;
                    simulators := <[i := sim']> (simulators σ);
                    trace := trace σ ++ r.2 |}
          else None
      | None => None
      end
  end.

Fixpoint run (σ : Config) (sched : list Step) : option Config :=
  match sched with
  | [] => Some σ
  | s :: rest =>
      match step σ s with
      | Some σ' => run σ' rest
      | None => None
      end
  end.

(** The number of connections a schedule accepts. *)
Fixpoint accepted (sched : list Step) : nat :=
  match sched with
  | [] => O
  | Accept _ :: rest => S (accepted rest)
  | _ :: rest => accepted rest
  end.

(** The messages a connection has received, oldest first. *)
Definition is_received (c : Client) (ev : Event) : option string :=
  match ev with
  | EvWrite c' message true => if decide (c' = c) then Some message else None
  | _ => None
  end.

Definition received (c : Client) (evs : list Event) : list string :=
  omap (is_received c) evs.

(** [Handler] registers a connection without writing anything to it. *)
Definition registers_silently : Prop :=
  ∀ σ c σ', step σ (Accept c) = Some σ' →
    trace σ' = trace σ ++ [EvInsert c; EvLog LogConnected].

(** At most one simulator goroutine is running. *)
Definition at_most_one_simulator (σ : Config) : Prop :=
  (length (simulators σ) <= 1)%nat.

(** *** Vocabulary for further properties *)

(** What one iteration of the loop of [broadcastScoreUpdates] does to the
    connection it has reached. *)
Definition visit (score : string) (failing : gset Client) (c : Client)
  : list Event :=
  if decide (c ∈ failing) then
    [EvWrite c score false; EvLog LogWriteError; EvClose c; EvDelete c]
  else [EvWrite c score true].

(** The number of ticks of simulator [i] in a schedule. *)
Fixpoint ticks_of (i : nat) (sched : list Step) : nat :=
  match sched with
  | [] => O
  | Tick j _ _ _ :: rest =>
      if decide (j = i) then S (ticks_of i rest) else ticks_of i rest
  | _ :: rest => ticks_of i rest
  end.

(** Every simulator has counted its ticks in its two scores. *)
Definition counts_ticks (sched : list Step) (σ : Config) : Prop :=
  ∀ i, match simulators σ !! i with
       | Some sim =>
           0 <= homeScore sim ∧ 0 <= awayScore sim
           ∧ homeScore sim + awayScore sim = Z.of_nat (ticks_of i sched)
       | None => ticks_of i sched = O
       end.

(** *** Concrete inputs *)

(** Two connections, then ticks of both simulators; the second tick fails
    to write to connection 2, whose handler then leaves its read loop. *)
Definition sched_ticks : list Step :=
  [Accept 1; Accept 2; Tick 0 10 [2%positive; 1%positive] ∅;
   Tick 1 11 [2%positive; 1%positive] {[2%positive]};
   Tick 0 12 [1%positive] ∅; ReadError 2].

(** Two connections in their read loops and one simulator at 3 and 1. *)
Definition config_ticking : Config :=
  {| clients := {[1%positive; 2%positive]};
     pcs := {[1%positive := PcReading; 2%positive := PcReading]};
     simulators := [{| homeScore := 3; awayScore := 1 |}];
     trace := [] |}.

End Serverless.

(** * Properties *)

(** ** Wrap-around arithmetic *)

Lemma wrap_id (z : Z) : int_min <= z <= int_max -> wrap z = z.
Proof.
  unfold wrap, int_min, int_max. intros Hz.
  rewrite Z.mod_small; lia.
Qed.

Lemma wrap_add_l (a b : Z) : wrap (wrap a + b) = wrap (a + b).
Proof.
  unfold wrap.
  replace ((a + 2 ^ 63) mod 2 ^ 64 - 2 ^ 63 + b + 2 ^ 63)
    with ((a + 2 ^ 63) mod 2 ^ 64 + b) by lia.
  rewrite Zplus_mod_idemp_l. do 2 f_equal. lia.
Qed.

(** ** Decimal numerals and delimiters *)

Lemma pretty_N_char_numeric n : numeric (pretty_N_char n).
Proof. unfold pretty_N_char, numeric. by repeat case_match. Qed.

Lemma pretty_N_go_numeric x :
  ∀ s, all_chars numeric s -> all_chars numeric (pretty_N_go x s).
Proof.
  induction (N.lt_wf_0 x) as [x _ IH]; intros s Hs.
  assert (x = 0 ∨ 0 < x)%N as [->|Hx] by lia.
  - by rewrite pretty_N_go_0.
  - rewrite pretty_N_go_step by done. apply IH.
    + by apply N.div_lt.
    + split; [apply pretty_N_char_numeric|done].
Qed.

Lemma pretty_N_numeric (x : N) : all_chars numeric (pretty x).
Proof.
  unfold pretty, pretty_N. case_decide.
  - simpl. split; [|done]. split; discriminate.
  - by apply pretty_N_go_numeric.
Qed.

Lemma pretty_Z_numeric (z : Z) : all_chars numeric (pretty z).
Proof.
  destruct z as [|p|p]; unfold pretty, pretty_Z.
  - simpl. split; [|done]. split; discriminate.
  - apply pretty_N_numeric.
  - simpl. split; [split; discriminate|]. apply pretty_N_numeric.
Qed.

Lemma append_delimiter_inj (d : ascii) (s1 : string) :
  ∀ s2 r1 r2,
    all_chars (λ a, a ≠ d) s1 -> all_chars (λ a, a ≠ d) s2 ->
    s1 +:+ String d r1 = s2 +:+ String d r2 ->
    s1 = s2 ∧ r1 = r2.
Proof.
  induction s1 as [|a s1 IH]; intros [|b s2] r1 r2 H1 H2 Heq; simpl in *.
  - by simplify_eq.
  - simplify_eq. by destruct H2.
  - simplify_eq. by destruct H1.
  - injection Heq as -> Heq. destruct H1 as [_ H1], H2 as [_ H2].
    destruct (IH _ _ _ H1 H2 Heq) as [-> ->]. done.
Qed.

Lemma all_chars_impl (P Q : ascii -> Prop) s :
  (∀ a, P a -> Q a) -> all_chars P s -> all_chars Q s.
Proof. intros HPQ. induction s; simpl; [done|]. intros [??]. split; auto. Qed.

Module ScoreServerFacts.
Import ScoreServer.

(** ** The shared state *)

Lemma applyMsg_bounded (msg : Message) (gs : GameState) (n : Z) :
  n < int_max -> bounded n gs -> bounded (n + 1) (applyMsg msg gs).
Proof.
  unfold bounded, applyMsg, int_max. intros Hn [HA HB].
  repeat case_match; simpl; rewrite ?wrap_id; unfold int_min, int_max;
    rewrite ?andb_true_iff, ?Z.ltb_lt in *; lia.
Qed.

Lemma snapshots_bounded (cmds : list Message) :
  ∀ (gs : GameState) (n : Z),
    bounded n gs -> n + Z.of_nat (length cmds) <= int_max ->
    Forall nonneg (snapshots cmds gs).
Proof.
  induction cmds as [|msg cmds IH]; intros gs n Hgs Hlen; simpl.
  - constructor.
  - simpl in Hlen.
    assert (Hb : bounded (n + 1) (applyMsg msg gs))
      by (apply applyMsg_bounded; [lia | done]).
    constructor.
    + destruct Hb as [[? _] [? _]]. by split.
    + apply (IH _ (n + 1)); [done | lia].
Qed.

Lemma snapshots_incA_last (n : nat) :
  ∀ gs : GameState,
    last (snapshots (replicate (S n) incA) gs)
    = Some {| ScoreA := wrap (ScoreA gs + Z.of_nat (S n)); ScoreB := ScoreB gs |}.
Proof.
  induction n as [|n IH]; intros gs.
  - reflexivity.
  - change (snapshots (replicate (S (S n)) incA) gs)
      with (applyMsg incA gs :: snapshots (replicate (S n) incA) (applyMsg incA gs)).
    specialize (IH (applyMsg incA gs)).
    destruct (snapshots (replicate (S n) incA) (applyMsg incA gs)) as [|g l] eqn:E;
      [discriminate|].
    rewrite last_cons_cons, IH.
    change (applyMsg incA gs)
      with {| ScoreA := wrap (ScoreA gs + 1); ScoreB := ScoreB gs |}.
    cbn [ScoreA ScoreB]. rewrite wrap_add_l. do 3 f_equal. lia.
Qed.

(** ** [Hub.broadcast] *)

Lemma range_clients_spec (message : string) (failing : gset Client)
    (order : list Client) :
  ∀ cs : gset Client,
    NoDup order -> (∀ c, c ∈ order -> c ∈ cs) ->
    range_clients message failing order cs
    = (cs ∖ (failing ∩ list_to_set order), order ≫= visit message failing).
Proof.
  induction order as [|c order IH]; intros cs Hnd Hsub; simpl.
  - f_equal. set_solver.
  - apply NoDup_cons in Hnd as [Hc Hnd].
    destruct (decide (c ∈ cs)) as [_|Hn]; [|exfalso; apply Hn, Hsub; left].
    unfold visit at 1. destruct (decide (c ∈ failing)) as [Hf|Hf].
    + rewrite IH; [|done|].
      * simpl. f_equal. set_solver.
      * intros c' Hc'. apply elem_of_difference. split; [apply Hsub; by right|].
        intros ->%elem_of_singleton. done.
    + rewrite IH; [|done|intros c' Hc'; apply Hsub; by right].
      simpl. f_equal. set_solver.
Qed.

Lemma order_elements (order : list Client) (cs : gset Client) :
  order ≡ₚ elements cs ->
  NoDup order ∧ (∀ c, c ∈ order ↔ c ∈ cs).
Proof.
  intros Hp. split.
  - rewrite Hp. apply NoDup_elements.
  - intros c. rewrite Hp. apply elem_of_elements.
Qed.

Lemma broadcast_spec (message : string) (failing : gset Client)
    (order : list Client) (h : Hub) :
  order ≡ₚ elements (clients h) ->
  broadcast message failing order h
  = ({| clients := clients h ∖ failing |}, order ≫= visit message failing).
Proof.
  intros [Hnd Hin]%order_elements. unfold broadcast.
  rewrite range_clients_spec; [|done|intros c; apply Hin].
  simpl. do 2 f_equal. apply set_eq. intros c.
  rewrite !elem_of_difference, elem_of_intersection, elem_of_list_to_set, Hin.
  tauto.
Qed.

(** ** Events of one broadcast *)

Lemma quiet_app c evs1 evs2 : quiet c (evs1 ++ evs2) ↔ quiet c evs1 ∧ quiet c evs2.
Proof.
  unfold quiet. split.
  - intros H. split; intros m ok Hin; apply (H m ok), elem_of_app; auto.
  - intros [H1 H2] m ok [Hin|Hin]%elem_of_app; [by apply (H1 m ok)|by apply (H2 m ok)].
Qed.

Lemma elem_of_visits ev message failing (order : list Client) :
  ev ∈ order ≫= visit message failing ↔
  ∃ c, c ∈ order ∧ ev ∈ visit message failing c.
Proof. rewrite list_elem_of_bind. naive_solver. Qed.

Lemma quiet_visits c message failing (order : list Client) :
  c ∉ order -> quiet c (order ≫= visit message failing).
Proof.
  intros Hc m ok (c' & Hc' & Hin)%elem_of_visits. unfold visit in Hin.
  case_decide; set_solver.
Qed.

Lemma closes_visits c message failing (order : list Client) :
  NoDup order ->
  closes c (order ≫= visit message failing)
  = if decide (c ∈ order ∧ c ∈ failing) then [InBroadcast] else [].
Proof.
  unfold closes. induction order as [|c' order IH]; intros Hnd.
  - rewrite decide_False; [done|]. intros [H _]. by apply elem_of_nil in H.
  - apply NoDup_cons in Hnd as [Hc' Hnd]. rewrite bind_cons, omap_app, IH by done.
    unfold visit. destruct (decide (c' ∈ failing)) as [Hf|Hf]; simpl.
    + destruct (decide (c' = c)) as [->|Hne]; simpl.
      * rewrite decide_False by tauto. rewrite decide_True; [done|]. split; [left|done].
      * apply (decide_ext _ _). rewrite elem_of_cons. naive_solver.
    + apply (decide_ext _ _). rewrite elem_of_cons. naive_solver.
Qed.

Lemma received_visits c message failing (order : list Client) :
  NoDup order ->
  received c (order ≫= visit message failing)
  = if decide (c ∈ order ∧ c ∉ failing) then [(InBroadcast, message)] else [].
Proof.
  unfold received. induction order as [|c' order IH]; intros Hnd.
  - rewrite decide_False; [done|]. intros [H _]. by apply elem_of_nil in H.
  - apply NoDup_cons in Hnd as [Hc' Hnd]. rewrite bind_cons, omap_app, IH by done.
    unfold visit. destruct (decide (c' ∈ failing)) as [Hf|Hf]; simpl.
    + apply (decide_ext _ _). rewrite elem_of_cons. naive_solver.
    + destruct (decide (c' = c)) as [->|Hne]; simpl.
      * rewrite decide_False by tauto. rewrite decide_True; [done|]. split; [left|done].
      * apply (decide_ext _ _). rewrite elem_of_cons. naive_solver.
Qed.

(** ** Steps as a relation *)

Lemma step_iff σ s σ' : step σ s = Some σ' ↔ step_spec σ s σ'.
Proof.
  split.
  - destruct s; unfold step; intros H;
      repeat (case_match; try discriminate); simplify_eq.
    all: try (econstructor; eauto; fail).
    + unfold receive. destruct (Unmarshal payload) eqn:E; econstructor; eauto.
    + rewrite broadcast_spec by done. econstructor; eauto.
  - destruct 1; unfold step; repeat (case_match; simplify_eq); try done.
    + unfold receive. by rewrite H0.
    + unfold receive. by rewrite H0.
    + rewrite broadcast_spec by done. done.
Qed.

(** ** Invariants of the executions *)

Lemma run_reachable (sched : list Step) :
  ∀ σ σ', reachable σ -> run σ sched = Some σ' -> reachable σ'.
Proof.
  induction sched as [|s sched IH]; simpl; intros σ σ' Hr Hrun.
  - by simplify_eq.
  - destruct (step σ s) as [σ1|] eqn:Hs; [|done].
    eapply IH; [|done]. by eapply reachable_step.
Qed.

Lemma at_pc_goto c c' pc σ :
  at_pc c (goto c' pc σ) = if decide (c' = c) then Some pc else at_pc c σ.
Proof. unfold at_pc, goto. simpl. apply lookup_insert. Qed.

Lemma at_pc_emit c evs σ : at_pc c (emit evs σ) = at_pc c σ.
Proof. reflexivity. Qed.

Lemma at_pc_set_hub c h σ : at_pc c (set_hub h σ) = at_pc c σ.
Proof. reflexivity. Qed.

Lemma at_pc_set_gameState c gs σ : at_pc c (set_gameState gs σ) = at_pc c σ.
Proof. reflexivity. Qed.

Ltac at_pc_simpl :=
  repeat first [ rewrite at_pc_goto | rewrite at_pc_emit
               | rewrite at_pc_set_hub | rewrite at_pc_set_gameState ].

Lemma closes_app c evs1 evs2 : closes c (evs1 ++ evs2) = closes c evs1 ++ closes c evs2.
Proof. apply omap_app. Qed.

Lemma received_app c evs1 evs2 :
  received c (evs1 ++ evs2) = received c evs1 ++ received c evs2.
Proof. apply omap_app. Qed.

Lemma closes_cons c ev evs :
  closes c (ev :: evs)
  = match is_close c ev with Some s => s :: closes c evs | None => closes c evs end.
Proof. reflexivity. Qed.

Lemma received_cons c ev evs :
  received c (ev :: evs)
  = match is_received c ev with Some m => m :: received c evs | None => received c evs end.
Proof. reflexivity. Qed.

Lemma unmentioned_closes c evs :
  Forall (λ ev, ¬ mentions c ev) evs -> closes c evs = [].
Proof.
  induction 1 as [|ev evs Hev _ IH]; [done|].
  rewrite closes_cons, IH.
  destruct ev; simpl in *; try done. by rewrite decide_False.
Qed.

Lemma unmentioned_received c evs :
  Forall (λ ev, ¬ mentions c ev) evs -> received c evs = [].
Proof.
  induction 1 as [|ev evs Hev _ IH]; [done|].
  rewrite received_cons, IH.
  destruct ev as [| |? ? ? []| |]; simpl in *; try done. by rewrite decide_False.
Qed.

Lemma unmentioned_visits c message failing (order : list Client) :
  c ∉ order -> Forall (λ ev, ¬ mentions c ev) (order ≫= visit message failing).
Proof.
  intros Hc. apply Forall_forall. intros ev (c' & Hc' & Hin)%elem_of_visits.
  unfold visit in Hin. case_decide; set_solver.
Qed.

Lemma hub_live σ : reachable σ -> ∀ c, c ∈ clients (hub σ) -> live (at_pc c σ).
Proof.
  induction 1 as [|σ s σ' _ IH Hstep]; intros c0.
  - simpl. set_solver.
  - apply step_iff in Hstep.
    destruct Hstep; simpl; at_pc_simpl; intros Hin;
      try (specialize (IH c0)); try case_decide; simplify_eq; simpl; try done;
      try (apply IH; set_solver); try set_solver.
    apply IH in Hin. by rewrite H in Hin.
Qed.

Lemma fresh_unmentioned σ :
  reachable σ ->
  ∀ c, at_pc c σ = None -> Forall (λ ev, ¬ mentions c ev) (trace σ).
Proof.
  induction 1 as [|σ s σ' Hr IH Hstep]; intros c0.
  - constructor.
  - apply step_iff in Hstep.
    destruct Hstep; simpl; at_pc_simpl; intros Hpc;
      try case_decide; simplify_eq;
      rewrite ?Forall_app; repeat split; try (by apply IH);
      repeat (apply Forall_cons; split); try apply Forall_nil; simpl; try done;
      try congruence.
    + apply unmentioned_visits. intros Hin.
      apply order_elements in H0 as [_ Hord]. apply Hord in Hin.
      apply (hub_live _ Hr) in Hin. by rewrite Hpc in Hin.
    + destruct unexpected; repeat constructor; simpl; tauto.
Qed.

Lemma unmentioned_delete c evs :
  Forall (λ ev, ¬ mentions c ev) evs -> EvDelete c ∉ evs.
Proof.
  intros Hall Hin. rewrite Forall_forall in Hall. by apply (Hall _ Hin).
Qed.

Lemma delete_visits c message failing (order : list Client) :
  EvDelete c ∈ order ≫= visit message failing ↔ c ∈ order ∧ c ∈ failing.
Proof.
  rewrite elem_of_visits. unfold visit. split.
  - intros (c' & Hc' & Hin). case_decide; set_solver.
  - intros [Hc Hf]. exists c. rewrite decide_True by done. set_solver.
Qed.

Lemma member_open σ :
  reachable σ ->
  ∀ c, c ∈ clients (hub σ) -> closes c (trace σ) = [] ∧ EvDelete c ∉ trace σ.
Proof.
  induction 1 as [|σ s σ' Hr IH Hstep]; intros c0.
  - simpl. set_solver.
  - apply step_iff in Hstep.
    destruct Hstep; simpl; intros Hin; rewrite ?closes_app, ?elem_of_app;
      try (destruct (IH c0 Hin) as [-> Hdel]; simpl; set_solver).
    + (* Accept *)
      destruct (decide (c0 = c)) as [->|Hne].
      * pose proof (fresh_unmentioned σ Hr c H) as Hfresh.
        rewrite (unmentioned_closes _ _ Hfresh). split; [done|].
        apply unmentioned_delete in Hfresh. set_solver.
      * destruct (IH c0) as [-> Hdel]; [set_solver|]. simpl. set_solver.
    + (* DoBroadcast *)
      apply elem_of_difference in Hin as [Hin Hf].
      destruct (IH c0 Hin) as [-> Hdel].
      rewrite closes_visits by (by apply order_elements in H0 as [? _]).
      rewrite decide_False by tauto. split; [done|].
      rewrite delete_visits. set_solver.
    + (* ReadError *)
      apply elem_of_difference in Hin as [Hin Hne].
      destruct (IH c0 Hin) as [-> Hdel]. destruct unexpected; simpl; set_solver.
    + (* CloseConn *)
      destruct (IH c0 Hin) as [-> Hdel].
      assert (c ≠ c0).
      { intros ->. apply (hub_live _ Hr) in Hin. by rewrite H in Hin. }
      unfold closes. simpl. rewrite decide_False by done. set_solver.
Qed.



Lemma after_delete_app_l c evs1 evs2 :
  EvDelete c ∈ evs1 -> after_delete c (evs1 ++ evs2) = after_delete c evs1 ++ evs2.
Proof.
  induction evs1 as [|ev evs1 IH]; intros Hin; [by apply elem_of_nil in Hin|].
  apply elem_of_cons in Hin as [<-|Hin]; simpl.
  - by destruct (decide (c = c)).
  - destruct ev; try by apply IH. case_decide; [done|by apply IH].
Qed.



Lemma quiet_suffix c evs1 evs2 : evs1 `suffix_of` evs2 -> quiet c evs2 -> quiet c evs1.
Proof. intros [k ->] [_ H]%quiet_app. done. Qed.

Lemma quiet_after_visits c message failing (order : list Client) :
  NoDup order -> quiet c (after_delete c (order ≫= visit message failing)).
Proof.
  induction order as [|c' order IH]; intros Hnd.
  - intros m ok Hin. by apply elem_of_nil in Hin.
  - apply NoDup_cons in Hnd as [Hc' Hnd]. rewrite bind_cons.
    unfold visit at 1. case_decide as Hf; simpl.
    + case_decide; subst; [by apply quiet_visits|by apply IH].
    + by apply IH.
Qed.

Lemma after_delete_is_suffix c evs : after_delete c evs `suffix_of` evs.
Proof.
  induction evs as [|ev evs IH]; [done|]. simpl.
  destruct ev; try by apply suffix_cons_r.
  case_decide; by apply suffix_cons_r.
Qed.

Lemma quiet_after_app c evs1 evs2 :
  quiet c (after_delete c evs1) -> quiet c evs2 ->
  quiet c (after_delete c (evs1 ++ evs2)).
Proof.
  intros H1 H2. induction evs1 as [|ev evs1 IH]; simpl.
  - eapply quiet_suffix; [apply after_delete_is_suffix|done].
  - simpl in H1. destruct ev; try by apply IH.
    case_decide; [by apply quiet_app|by apply IH].
Qed.

Lemma quiet_log c line : quiet c [EvLog line].
Proof. intros m ok Hin. set_solver. Qed.

Lemma quiet_no_broadcast c evs (P : Prop) :
  (∀ c' m ok, EvWrite InBroadcast c' m ok ∉ evs) ->
  quiet c (after_delete c evs) ∧ (P -> quiet c evs).
Proof.
  intros Hevs. assert (Hq : quiet c evs) by (intros m ok; apply Hevs).
  split; [|done]. eapply quiet_suffix; [apply after_delete_is_suffix|done].
Qed.

(** What a step adds to the trace, as far as the broadcast writes to a
    client are concerned. *)
Lemma step_trace σ s σ' :
  step σ s = Some σ' ->
  ∃ evs, trace σ' = trace σ ++ evs ∧
    ∀ c, quiet c (after_delete c evs) ∧ (c ∉ clients (hub σ) -> quiet c evs).
Proof.
  intros Hstep%step_iff. destruct Hstep; simpl.
  7: { eexists; split; [reflexivity|]. intros c0.
       apply order_elements in H0 as [Hnd Hord]. split.
       - apply quiet_after_app; [by apply quiet_after_visits|apply quiet_log].
       - intros Hc. apply quiet_app. split; [|apply quiet_log].
         apply quiet_visits. by rewrite Hord. }
  3, 6: exists []; (split; [by rewrite app_nil_r|]); intros c0;
    apply quiet_no_broadcast; intros c' m ok' Hin; set_solver.
  all: eexists; (split; [reflexivity|]); intros c0;
    apply quiet_no_broadcast; intros c' m ok' Hin;
    try destruct unexpected; set_solver.
Qed.

Lemma run_trace (sched : list Step) :
  ∀ σ σ', run σ sched = Some σ' -> ∃ evs, trace σ' = trace σ ++ evs.
Proof.
  induction sched as [|s sched IH]; simpl; intros σ σ' Hrun.
  - simplify_eq. exists []. by rewrite app_nil_r.
  - destruct (step σ s) as [σ1|] eqn:Hs; [|done].
    apply step_trace in Hs as (evs1 & E1 & _).
    destruct (IH _ _ Hrun) as (evs2 & E2).
    exists (evs1 ++ evs2). by rewrite E2, E1, app_assoc.
Qed.


Lemma gone_step c σ s σ' : gone c σ -> step σ s = Some σ' -> gone c σ'.
Proof.
  intros [Hpc Hhub] Hstep%step_iff. unfold gone.
  destruct Hstep; simpl; at_pc_simpl; try case_decide; subst;
    try (split; [done|set_solver]).
  rewrite H in Hpc. by destruct Hpc.
Qed.

Lemma gone_run c (sched : list Step) :
  ∀ σ σ', gone c σ -> run σ sched = Some σ' ->
    gone c σ' ∧ ∃ evs, trace σ' = trace σ ++ evs ∧ quiet c evs.
Proof.
  induction sched as [|s sched IH]; simpl; intros σ σ' Hg Hrun.
  - simplify_eq. split; [done|]. exists []. rewrite app_nil_r. split; [done|].
    by intros m ok Hin%elem_of_nil.
  - destruct (step σ s) as [σ1|] eqn:Hs; [|done].
    pose proof (gone_step _ _ _ _ Hg Hs) as Hg1.
    apply step_trace in Hs as (evs1 & E1 & Hq1).
    destruct (IH _ _ Hg1 Hrun) as (Hg' & evs2 & E2 & Hq2).
    split; [done|]. exists (evs1 ++ evs2). rewrite E2, E1, app_assoc. split; [done|].
    apply quiet_app. split; [|done]. apply Hq1, Hg.
Qed.

(** ** The shared state in the executions *)

Lemma step_gameState σ s σ' :
  step σ s = Some σ' ->
  gameState σ' = match decoded s with
                 | Some msg => applyMsg msg (gameState σ)
                 | None => gameState σ
                 end.
Proof.
  intros Hstep%step_iff. destruct Hstep; simpl; try done.
  - by rewrite H0.
  - by rewrite H0.
Qed.

(** The shared state after an execution is the last snapshot of the
    commands decoded in it. *)
Lemma run_gameState (sched : list Step) :
  ∀ σ σ', run σ sched = Some σ' ->
    gameState σ'
    = default (gameState σ)
        (last (snapshots (commands sched) (gameState σ))).
Proof.
  induction sched as [|s sched IH]; simpl; intros σ σ' Hrun.
  - by simplify_eq.
  - destruct (step σ s) as [σ1|] eqn:Hs; [|done].
    apply step_gameState in Hs. rewrite (IH _ _ Hrun), Hs.
    change (commands (s :: sched))
      with (match decoded s with
            | Some msg => msg :: commands sched
            | None => commands sched
            end).
    destruct (decoded s) as [msg|]; [|done].
    change (snapshots (msg :: commands sched) (gameState σ))
      with (applyMsg msg (gameState σ)
              :: snapshots (commands sched) (applyMsg msg (gameState σ))).
    generalize (snapshots (commands sched) (applyMsg msg (gameState σ))).
    intros [|g l]; [reflexivity|]. rewrite last_cons_cons.
    destruct (last (g :: l)) eqn:E; [done|]. by apply last_None in E.
Qed.

Lemma run_nonneg sched σ :
  scores_nonneg (commands sched) -> run init sched = Some σ ->
  nonneg (gameState σ).
Proof.
  intros Hall Hrun. rewrite (run_gameState _ _ _ Hrun).
  unfold scores_nonneg in Hall. simpl.
  destruct (last (snapshots (commands sched) gameState0)) as [gs|] eqn:E; simpl.
  - apply last_Some_elem_of in E. rewrite Forall_forall in Hall. by apply Hall.
  - unfold nonneg, gameState0. simpl. lia.
Qed.

(** C1, as stated, fails: after 2^63 increments of team A the score of A
    has wrapped around to the least [int], which is negative. *)
Lemma scores_nonneg_overflow :
  ¬ scores_nonneg (replicate (Z.to_nat (2 ^ 63)) incA).
Proof.
  unfold scores_nonneg. intros Hall.
  assert (Hn : ∃ n, Z.to_nat (2 ^ 63) = S n ∧ Z.of_nat (S n) = 2 ^ 63).
  { exists (Nat.pred (Z.to_nat (2 ^ 63))).
    assert (Z.of_nat (Z.to_nat (2 ^ 63)) = 2 ^ 63) by (apply Z2Nat.id; lia).
    lia. }
  destruct Hn as (n & Hn & HZ). rewrite Hn in Hall.
  pose proof (snapshots_incA_last n gameState0) as Hlast.
  rewrite HZ in Hlast.
  apply last_Some_elem_of in Hlast.
  rewrite Forall_forall in Hall. apply Hall in Hlast.
  destruct Hlast as [HA _]. revert HA. vm_compute. intros HA. by apply HA.
Qed.

(** C1 (amended): for every sequence of fewer than 2^63 decoded commands
    (increment, decrement, reset or unknown, for any team) applied to the
    shared state from {scoreA:0, scoreB:0}, both scores are non-negative at
    every snapshot; so is the shared state of the server after every
    execution in which these are the commands decoded. *)
Theorem scores_nonneg_below_overflow (cmds : list Message) :
  Z.of_nat (length cmds) < 2 ^ 63 ->
  scores_nonneg cmds
  ∧ ∀ sched σ, commands sched = cmds -> run init sched = Some σ ->
      nonneg (gameState σ).
Proof.
  intros Hlen.
  assert (Hall : scores_nonneg cmds).
  { unfold scores_nonneg. apply (snapshots_bounded cmds gameState0 0).
    - unfold bounded, gameState0; simpl; lia.
    - unfold int_max. lia. }
  split; [done|]. intros sched σ <- Hrun. by apply (run_nonneg sched).
Qed.

Lemma scores_nonneg_below_overflow_witness :
  scores_nonneg cmds_four
  ∧ ∀ sched σ, commands sched = cmds_four -> run init sched = Some σ ->
      nonneg (gameState σ).
Proof. apply scores_nonneg_below_overflow. simpl. lia. Defined.

(** ** The read loop and the broadcasts it triggers *)

Lemma write_visits c message failing (order : list Client) :
  c ∈ order ->
  EvWrite InBroadcast c message (bool_decide (c ∉ failing))
    ∈ order ≫= visit message failing.
Proof.
  intros Hc. apply elem_of_visits. exists c. split; [done|]. unfold visit.
  destruct (decide (c ∈ failing)).
  - rewrite bool_decide_eq_false_2 by tauto. set_solver.
  - rewrite bool_decide_eq_true_2 by done. set_solver.
Qed.

(** One pass of the loop of [handleMessages] on a payload that decodes:
    the state is updated and its serialization is broadcast. *)
Lemma receive_then_broadcast c payload msg σ order failing :
  at_pc c σ = Some PcReading ->
  Unmarshal payload = Some msg ->
  order ≡ₚ elements (clients (hub σ)) ->
  ∃ σ', run σ [Receive c payload; DoBroadcast c order failing] = Some σ'
    ∧ gameState σ' = applyMsg msg (gameState σ)
    ∧ hub σ' = {| clients := clients (hub σ) ∖ failing |}
    ∧ at_pc c σ' = Some PcReading
    ∧ trace σ' = trace σ
        ++ (order ≫= visit (Marshal (applyMsg msg (gameState σ))) failing)
        ++ [EvLog (LogProcessed msg (Marshal (applyMsg msg (gameState σ))))].
Proof.
  intros Hpc Hmsg Hord.
  pose proof (spec_Receive σ c payload msg Hpc Hmsg) as H1%step_iff.
  set (σ1 := goto c _ _) in H1.
  assert (Hpc1 : at_pc c σ1
                 = Some (PcUpdated msg (Marshal (applyMsg msg (gameState σ))))).
  { unfold σ1. rewrite at_pc_goto. by destruct (decide (c = c)). }
  pose proof (spec_DoBroadcast σ1 c order failing _ _ Hpc1 Hord) as H2%step_iff.
  eexists. split; [cbn [run]; rewrite H1, H2; reflexivity|].
  split; [done|]. split; [done|]. split.
  - rewrite at_pc_goto. by destruct (decide (c = c)).
  - done.
Qed.

Lemma applyMsg_decrement_zero msg gs :
  Action msg = "decrement" ->
  (Team msg = "A" ∧ ScoreA gs = 0) ∨ (Team msg = "B" ∧ ScoreB gs = 0) ->
  applyMsg msg gs = gs.
Proof.
  intros Ha Ht. unfold applyMsg. rewrite Ha. simpl.
  destruct Ht as [[Ht Hs]|[Ht Hs]]; rewrite Ht, Hs; done.
Qed.

Lemma applyMsg_unknown msg gs :
  (Action msg ≠ "increment" ∧ Action msg ≠ "decrement" ∧ Action msg ≠ "reset")
  ∨ ((Action msg = "increment" ∨ Action msg = "decrement")
     ∧ Team msg ≠ "A" ∧ Team msg ≠ "B") ->
  applyMsg msg gs = gs.
Proof.
  unfold applyMsg. intros [(H1 & H2 & H3)|([Ha|Ha] & HA & HB)].
  - apply String.eqb_neq in H1, H2, H3. by rewrite H1, H2, H3.
  - apply String.eqb_neq in HA, HB. rewrite Ha, HA, HB. done.
  - apply String.eqb_neq in HA, HB. rewrite Ha, HA, HB. done.
Qed.

Lemma broadcasts_after_decode c payload msg σ order failing :
  at_pc c σ = Some PcReading ->
  Unmarshal payload = Some msg ->
  order ≡ₚ elements (clients (hub σ)) ->
  broadcasts_state c payload msg order failing σ (applyMsg msg (gameState σ)).
Proof.
  intros Hpc Hmsg Hord.
  destruct (receive_then_broadcast c payload msg σ order failing Hpc Hmsg Hord)
    as (σ' & Hrun & Hgs & Hhub & Hpc' & Htr).
  exists σ'. repeat (split; [done|]).
  intros c' Hc'. rewrite Htr, !elem_of_app. right; left.
  apply write_visits. by apply order_elements in Hord as [_ ->].
Qed.

(** C2: in every state in which the score of a team is 0, a decrement for
    that team leaves the score (and the whole state) unchanged; it is not an
    error, the read loop goes on, and the processor still broadcasts a
    snapshot, equal to the state before the command, to every registered
    connection. *)
Theorem decrement_at_zero_broadcasts_prior_state c payload msg σ order failing :
  at_pc c σ = Some PcReading ->
  Unmarshal payload = Some msg ->
  Action msg = "decrement" ->
  (Team msg = "A" ∧ ScoreA (gameState σ) = 0)
  ∨ (Team msg = "B" ∧ ScoreB (gameState σ) = 0) ->
  order ≡ₚ elements (clients (hub σ)) ->
  applyMsg msg (gameState σ) = gameState σ
  ∧ broadcasts_state c payload msg order failing σ (gameState σ).
Proof.
  intros Hpc Hmsg Ha Ht Hord.
  pose proof (applyMsg_decrement_zero msg (gameState σ) Ha Ht) as Hnoop.
  split; [done|].
  pose proof (broadcasts_after_decode c payload msg σ order failing Hpc Hmsg Hord)
    as Hb.
  by rewrite Hnoop in Hb.
Qed.

Lemma decrement_at_zero_broadcasts_prior_state_witness :
  applyMsg {| Action := "decrement"; Team := "B" |} (gameState config_one)
  = gameState config_one
  ∧ broadcasts_state 1 (command "decrement" "B")
      {| Action := "decrement"; Team := "B" |} [1%positive] ∅ config_one
      (gameState config_one).
Proof.
  apply decrement_at_zero_broadcasts_prior_state.
  - reflexivity.
  - reflexivity.
  - reflexivity.
  - right. split; reflexivity.
  - vm_compute. reflexivity.
Defined.

(** C8: a decoded command whose action is none of increment, decrement and
    reset, or which targets a team other than A and B with an increment or
    a decrement, leaves both scores unchanged, and the unchanged snapshot is
    still broadcast to every registered connection. *)
Theorem unknown_command_broadcasts_unchanged_state c payload msg σ order failing :
  at_pc c σ = Some PcReading ->
  Unmarshal payload = Some msg ->
  (Action msg ≠ "increment" ∧ Action msg ≠ "decrement" ∧ Action msg ≠ "reset")
  ∨ ((Action msg = "increment" ∨ Action msg = "decrement")
     ∧ Team msg ≠ "A" ∧ Team msg ≠ "B") ->
  order ≡ₚ elements (clients (hub σ)) ->
  applyMsg msg (gameState σ) = gameState σ
  ∧ broadcasts_state c payload msg order failing σ (gameState σ).
Proof.
  intros Hpc Hmsg Hunk Hord.
  pose proof (applyMsg_unknown msg (gameState σ) Hunk) as Hnoop.
  split; [done|].
  pose proof (broadcasts_after_decode c payload msg σ order failing Hpc Hmsg Hord)
    as Hb.
  by rewrite Hnoop in Hb.
Qed.

Lemma unknown_command_broadcasts_unchanged_state_witness :
  applyMsg {| Action := "increment"; Team := "C" |} (gameState config_one)
  = gameState config_one
  ∧ broadcasts_state 1 (command "increment" "C")
      {| Action := "increment"; Team := "C" |} [1%positive] ∅ config_one
      (gameState config_one).
Proof.
  apply unknown_command_broadcasts_unchanged_state.
  - reflexivity.
  - reflexivity.
  - right. split; [by left|]. split; discriminate.
  - vm_compute. reflexivity.
Defined.

(** C7: when a payload fails to decode, the read loop goes on: the shared
    state, the registry and the program points are unchanged (the
    connection stays open and registered), and the only event is a log
    line: nothing is broadcast and no error message is written to the
    client. *)
Theorem decode_failure_is_skipped c payload σ :
  at_pc c σ = Some PcReading ->
  Unmarshal payload = None ->
  ∃ σ', step σ (Receive c payload) = Some σ'
    ∧ gameState σ' = gameState σ
    ∧ hub σ' = hub σ
    ∧ pcs σ' = pcs σ
    ∧ trace σ' = trace σ ++ [EvLog LogUnmarshalError].
Proof.
  intros Hpc Herr. eexists. split.
  - apply step_iff. by apply spec_Receive_error.
  - done.
Qed.

Lemma decode_failure_is_skipped_witness :
  ∃ σ', step config_one (Receive 1 (Malformed "garbage")) = Some σ'
    ∧ gameState σ' = gameState config_one
    ∧ hub σ' = hub config_one
    ∧ pcs σ' = pcs config_one
    ∧ trace σ' = trace config_one ++ [EvLog LogUnmarshalError].
Proof. apply decode_failure_is_skipped; reflexivity. Defined.

(** C3, as stated, fails: with two clients of which the first one reached
    fails, that client is deleted from the registry before the second one
    is written to, that is during the scan. *)
Lemma removals_inside_scan :
  [1%positive; 2%positive] ≡ₚ elements (clients hub_two)
  ∧ ¬ removals_after_scan
        (broadcast "s" {[1%positive]} [1%positive; 2%positive] hub_two).2.
Proof.
  split.
  - vm_compute. apply perm_swap.
  - intros H.
    apply (H 1%positive
             [EvWrite InBroadcast 1%positive "s" false; EvLog LogBroadcastError;
              EvClose InBroadcast 1%positive]
             [EvWrite InBroadcast 2%positive "s" true]
             eq_refl 2%positive "s" true).
    apply list_elem_of_singleton. reflexivity.
Qed.

(** C3 (amended): during a broadcast every client of the registry is
    reached once; a client whose write fails is closed and deleted from the
    registry at once, inside the scan and before the next client is written
    to (Go allows the deletion of map entries during a [range]); after the
    broadcast the registry is the one before without the clients whose write
    failed. *)
Theorem broadcast_removes_while_scanning message failing order h :
  order ≡ₚ elements (clients h) ->
  broadcast message failing order h
  = ({| clients := clients h ∖ failing |}, order ≫= visit message failing)
  ∧ NoDup order.
Proof.
  intros Hord. split; [by apply broadcast_spec|].
  by apply order_elements in Hord as [? _].
Qed.

Lemma broadcast_removes_while_scanning_witness :
  broadcast "s" {[1%positive]} [1%positive; 2%positive] hub_two
  = ({| clients := clients hub_two ∖ {[1%positive]} |},
     [1%positive; 2%positive] ≫= visit "s" {[1%positive]})
  ∧ NoDup [1%positive; 2%positive].
Proof.
  apply broadcast_removes_while_scanning.
  vm_compute. apply perm_swap.
Defined.

(** ** A failing peer *)

Lemma close_visits c message failing (order : list Client) :
  c ∈ order -> c ∈ failing ->
  EvClose InBroadcast c ∈ order ≫= visit message failing.
Proof.
  intros Hc Hf. apply elem_of_visits. exists c. split; [done|]. unfold visit.
  destruct (decide (c ∈ failing)); [|done]. set_solver.
Qed.

(** A broadcast that completes isolates the failure of a write: the
    transport of that connection is closed, the connection is removed from
    the registry and no later broadcast writes to it, while every other
    registered connection whose own write succeeds receives that same
    payload and stays registered. *)
Lemma completed_broadcast_isolates_failure σ k order failing σ' c :
  reachable σ ->
  step σ (DoBroadcast k order failing) = Some σ' ->
  c ∈ clients (hub σ) ->
  c ∈ failing ->
  isolates_failure σ k failing σ' c.
Proof.
  intros Hr Hstep Hc Hf.
  pose proof Hstep as Hspec%step_iff.
  inversion Hspec as [| | | | | |k' o' f' msg payload Hpc Hord| |]; subst.
  pose proof Hord as [Hnd Hin]%order_elements.
  exists msg, payload, ((order ≫= visit payload failing)
                          ++ [EvLog (LogProcessed msg payload)]).
  split; [done|]. split; [done|]. split; [|split; [|split; [|split]]].
  - apply elem_of_app. left.
    replace false with (bool_decide (c ∉ failing))
      by (apply bool_decide_eq_false_2; tauto).
    apply write_visits. by apply Hin.
  - apply elem_of_app. left. apply close_visits; [by apply Hin|done].
  - simpl. set_solver.
  - intros c' Hc' Hf'. split; [|simpl; set_solver].
    rewrite received_app, received_visits by done.
    rewrite decide_True; [done|]. split; [by apply Hin|done].
  - intros sched' σ'' Hrun'.
    assert (Hg : gone c (goto k PcReading
                   (emit ((order ≫= visit payload failing)
                            ++ [EvLog (LogProcessed msg payload)])
                      (set_hub {| clients := clients (hub σ) ∖ failing |} σ)))).
    { split; [|simpl; set_solver]. at_pc_simpl.
      destruct (decide (k = c)); [done|].
      apply (hub_live σ Hr) in Hc. by destruct (at_pc c σ). }
    destruct (gone_run c sched' _ _ Hg Hrun') as [[_ Hout] Hlater]. done.
Qed.

(** When [serveWs] is writing to no client of the registry, the broadcast
    completes and the failure of a write is isolated. *)
Lemma failed_write_is_isolated_without_overlap sched σ k order failing c :
  run init sched = Some σ ->
  may_panic σ (DoBroadcast k order failing) = false ->
  c ∈ clients (hub σ) ->
  c ∈ failing ->
  always_isolates_failure σ k order failing c.
Proof.
  intros Hrun Hcalm Hc Hf o Ho.
  assert (Hr : reachable σ) by (eapply run_reachable; [constructor|done]).
  unfold outcomes in Ho. rewrite Hcalm in Ho.
  destruct (step σ (DoBroadcast k order failing)) as [σ'|] eqn:Hstep;
    [|by apply elem_of_nil in Ho].
  apply list_elem_of_singleton in Ho as ->.
  exists σ'. split; [done|]. by eapply completed_broadcast_isolates_failure.
Qed.

Lemma failed_write_is_isolated_without_overlap_witness :
  ∃ σ, run init sched_two = Some σ
    ∧ always_isolates_failure σ 1 [2%positive; 1%positive] {[2%positive]} 2.
Proof.
  eexists. split; [vm_compute; reflexivity|].
  apply (failed_write_is_isolated_without_overlap sched_two).
  - vm_compute. reflexivity.
  - vm_compute. reflexivity.
  - vm_compute. reflexivity.
  - vm_compute. reflexivity.
Defined.

(** C4, at the failing input: clients 1 and 3 are in their read loops and
    client 2 is registered, with the initial write of [serveWs] to it in
    flight, when client 1 broadcasts and the write to client 3 fails.  The
    broadcast writes to client 2 as well, that write may overlap the one of
    [serveWs], and then the process exits before the payload is delivered:
    the failure of the write to client 3 is not isolated in every
    outcome. *)
Theorem overlapping_write_aborts_broadcast :
  ∃ σ, run init sched_overlap = Some σ
    ∧ 3%positive ∈ clients (hub σ)
    ∧ 2%positive ∈ clients (hub σ)
    ∧ write_in_flight (at_pc 2 σ) = true
    ∧ Panicked ∈ outcomes σ (DoBroadcast 1 [3%positive; 2%positive; 1%positive]
                               {[3%positive]})
    ∧ ¬ always_isolates_failure σ 1 [3%positive; 2%positive; 1%positive]
          {[3%positive]} 3.
Proof.
  eexists. split; [vm_compute; reflexivity|].
  split; [vm_compute; reflexivity|].
  split; [vm_compute; reflexivity|].
  split; [reflexivity|].
  assert (Hp : Panicked ∈ outcomes
                 (default init (run init sched_overlap))
                 (DoBroadcast 1 [3%positive; 2%positive; 1%positive]
                    {[3%positive]})).
  { vm_compute. right. left. }
  split; [exact Hp|].
  intros H. destruct (H Panicked Hp) as (σ' & Heq & _). discriminate Heq.
Qed.

(** ** Removal and closing *)


(** [serveWs] may also write the initial state to a connection that a
    broadcast has already removed. *)
Lemma initial_write_after_removal :
  after_delete 2 ∘ trace <$> run init sched_write_after_removal
  = Some [EvWrite InBroadcast 1 (Marshal {| ScoreA := 1; ScoreB := 0 |}) true;
          EvLog (LogProcessed incA (Marshal {| ScoreA := 1; ScoreB := 0 |}));
          EvWrite InServeWs 2 (Marshal {| ScoreA := 1; ScoreB := 0 |}) false].
Proof. vm_compute. reflexivity. Qed.




(** ** [serveWs] *)

Lemma served_step c σ s σ' :
  served (at_pc c σ) -> step σ s = Some σ' ->
  served (at_pc c σ')
  ∧ ∃ evs, trace σ' = trace σ ++ evs ∧ from_broadcast (received c evs).
Proof.
  intros Hs Hstep%step_iff. unfold from_broadcast.
  destruct Hstep; simpl; at_pc_simpl.
  7: { split; [by destruct (decide (c0 = c))|].
       eexists; split; [reflexivity|].
       apply order_elements in H0 as [Hnd _].
       rewrite received_app, received_visits by done.
       case_decide; repeat constructor. }
  3, 6: split; [destruct (decide (c0 = c)); subst; [by rewrite H in Hs|done]|];
    exists []; by rewrite app_nil_r.
  all: split; [try destruct (decide (c0 = c)); subst; try done;
               by rewrite H in Hs|].
  all: eexists; (split; [reflexivity|]); try destruct unexpected;
    try constructor.
  unfold received. simpl. destruct ok; [|constructor].
  destruct (decide (c0 = c)); subst; [by rewrite H in Hs|constructor].
Qed.

Lemma served_run c (sched : list Step) :
  ∀ σ σ', served (at_pc c σ) -> run σ sched = Some σ' ->
    ∃ evs, trace σ' = trace σ ++ evs ∧ from_broadcast (received c evs).
Proof.
  induction sched as [|s sched IH]; simpl; intros σ σ' Hs Hrun.
  - simplify_eq. exists []. rewrite app_nil_r. split; [done|constructor].
  - destruct (step σ s) as [σ1|] eqn:Hstep; [|done].
    destruct (served_step _ _ _ _ Hs Hstep) as (Hs1 & evs1 & E1 & H1).
    destruct (IH _ _ Hs1 Hrun) as (evs2 & E2 & H2).
    exists (evs1 ++ evs2). rewrite E2, E1, app_assoc. split; [done|].
    rewrite received_app. by apply Forall_app.
Qed.

Lemma serveWs_uninterrupted c ok σ :
  at_pc c σ = None ->
  ∃ σ', run σ [Accept c; ReadState c; WriteInitial c ok] = Some σ'
    ∧ gameState σ' = gameState σ
    ∧ at_pc c σ' = Some PcReading
    ∧ trace σ' = trace σ ++ [EvInsert c; EvLog LogConnected;
                             EvWrite InServeWs c (Marshal (gameState σ)) ok].
Proof.
  intros Hpc.
  pose proof (spec_Accept σ c Hpc) as H1%step_iff.
  set (σ1 := goto c PcRegistered _) in H1.
  assert (Hpc1 : at_pc c σ1 = Some PcRegistered).
  { unfold σ1. rewrite at_pc_goto. by destruct (decide (c = c)). }
  pose proof (spec_ReadState σ1 c Hpc1) as H2%step_iff.
  set (σ2 := goto c (PcInitial _) _) in H2.
  assert (Hpc2 : at_pc c σ2 = Some (PcInitial (Marshal (gameState σ)))).
  { unfold σ2. rewrite at_pc_goto. by destruct (decide (c = c)). }
  pose proof (spec_WriteInitial σ2 c ok _ Hpc2) as H3%step_iff.
  eexists. split; [cbn [run]; rewrite H1, H2, H3; reflexivity|].
  split; [done|]. split.
  - rewrite at_pc_goto. by destruct (decide (c = c)).
  - simpl. by rewrite <- app_assoc.
Qed.

(** [serveWs] run without interruption from a reachable configuration: the
    new client receives the serialization of the state at its registration
    first, and whatever else it receives later comes from a broadcast. *)
Lemma serveWs_initial_state sched σ c ok :
  run init sched = Some σ ->
  at_pc c σ = None ->
  initial_state_first σ c ok.
Proof.
  intros Hrun Hpc.
  assert (Hr : reachable σ) by (eapply run_reachable; [constructor|done]).
  destruct (serveWs_uninterrupted c ok σ Hpc) as (σ1 & Hrun1 & _ & Hpc1 & Htr).
  exists σ1. split; [done|]. split.
  - rewrite Htr, received_app.
    rewrite (unmentioned_received c (trace σ)) by (by apply fresh_unmentioned).
    unfold received. simpl. destruct ok; [|done]. by destruct (decide (c = c)).
  - intros sched' σ' Hrun'.
    destruct (served_run c sched' σ1 σ') as (evs & E & Hevs);
      [by rewrite Hpc1|done|].
    exists (received c evs). by rewrite E, received_app.
Qed.

(** A broadcast that runs between the registration of client 2 and the
    write of its initial state reaches client 2 first, and the initial state
    it is sent afterwards is not the state at its registration. *)
Lemma broadcast_before_initial_state :
  ∃ σ σ', run init [Accept 1; ReadState 1; WriteInitial 1 true] = Some σ
    ∧ gameState σ = gameState0
    ∧ run σ sched_registered_then_broadcast = Some σ'
    ∧ received 2 (trace σ')
      = [(InBroadcast, Marshal {| ScoreA := 1; ScoreB := 0 |});
         (InServeWs, Marshal {| ScoreA := 1; ScoreB := 0 |})]
    ∧ ¬ snapshot_first 2 (gameState σ) σ'.
Proof.
  eexists _, _. split; [vm_compute; reflexivity|].
  split; [reflexivity|]. split; [vm_compute; reflexivity|].
  split; [vm_compute; reflexivity|].
  intros H. specialize (H _ _ eq_refl). discriminate H.
Qed.

(** ** Decoding *)

Lemma decode_members_typed (members : list (string * JValue)) :
  ∀ msg, typed_members members ->
    decode_members members msg
    = Some {| Action := member_string FAction members (Action msg);
              Team := member_string FTeam members (Team msg) |}.
Proof.
  induction members as [|[key v] members IH]; intros msg Hty.
  - by destruct msg.
  - assert (Hty' : typed_members members).
    { intros k w Hin. apply Hty. by right. }
    simpl. destruct (field_of_key key) as [f|] eqn:Hf.
    + destruct (Hty key v) as [->|[s ->]]; [by left|by rewrite Hf| |].
      * by apply IH.
      * rewrite IH by done. by destruct f.
    + rewrite IH by done. by destruct v.
Qed.

Lemma decode_members_Some_typed (members : list (string * JValue)) :
  ∀ msg, is_Some (decode_members members msg) -> typed_members members.
Proof.
  induction members as [|[key v] members IH]; intros msg Hsome k w Hin Hf.
  - by apply elem_of_nil in Hin.
  - simpl in Hsome. apply elem_of_cons in Hin as [[= -> ->]|Hin].
    + destruct Hf as [f Hf]. rewrite Hf in Hsome.
      destruct v; eauto; by destruct Hsome.
    + destruct (field_of_key key) as [f|].
      * destruct v; try (by destruct Hsome); by eapply IH.
      * by eapply IH.
Qed.

Lemma ill_typed_not_typed (members : list (string * JValue)) :
  ill_typed_members members -> ¬ typed_members members.
Proof.
  intros (key & v & Hin & Hf & Hv) Hty.
  destruct (Hty key v Hin Hf) as [->|[s ->]]; done.
Qed.

(** C10, as stated, fails: the JSON object whose action member is the
    number 5 is a decode failure. *)
Lemma number_for_action_is_rejected :
  ¬ is_Some (Unmarshal (WellFormed (JObject [("action", JNumber "5")]))).
Proof. intros [msg H]. discriminate H. Qed.

(** C10 (amended): a JSON object whose members named action or team (up
    to case) are strings or null decodes successfully; members of any other
    name are ignored and a field that no string member names is the empty
    string; the decoded command is applied and the state after it is
    broadcast, so the object without members decodes to a command that
    changes nothing and still triggers a broadcast of the unchanged state.
    An object that gives action or team a number, a boolean, an array or an
    object is a decode failure: the read loop logs it and goes on, nothing
    is applied and nothing is broadcast. *)
Theorem typed_object_decodes members c σ order failing :
  typed_members members ->
  at_pc c σ = Some PcReading ->
  order ≡ₚ elements (clients (hub σ)) ->
  decodes_leniently members
  ∧ broadcasts_state c (WellFormed (JObject members)) (member_message members)
      order failing σ (applyMsg (member_message members) (gameState σ))
  ∧ broadcasts_state c (WellFormed (JObject [])) zeroMessage order failing σ
      (gameState σ)
  ∧ ∀ others, ill_typed_members others ->
      Unmarshal (WellFormed (JObject others)) = None
      ∧ step σ (Receive c (WellFormed (JObject others)))
        = Some (emit [EvLog LogUnmarshalError] σ).
Proof.
  intros Hty Hpc Hord.
  assert (Hdec : Unmarshal (WellFormed (JObject members))
                 = Some (member_message members))
    by (by apply decode_members_typed).
  split; [|split; [|split]].
  - split; [done|]. split.
    + intros key v Hkey. simpl. by rewrite Hkey.
    + split; [done|]. by intros [].
  - by apply broadcasts_after_decode.
  - by apply (broadcasts_after_decode c (WellFormed (JObject [])) zeroMessage).
  - intros others Hill%ill_typed_not_typed.
    assert (Hnone : Unmarshal (WellFormed (JObject others)) = None).
    { destruct (Unmarshal (WellFormed (JObject others))) as [msg|] eqn:Hdec';
        [|done].
      destruct Hill. apply (decode_members_Some_typed others zeroMessage).
      simpl in Hdec'. by rewrite Hdec'. }
    split; [done|]. apply step_iff. by apply spec_Receive_error.
Qed.

Lemma typed_object_decodes_witness :
  decodes_leniently [("Action", JString "reset"); ("extra", JNumber "1");
                     ("team", JNull)]
  ∧ broadcasts_state 1
      (WellFormed (JObject [("Action", JString "reset");
                            ("extra", JNumber "1"); ("team", JNull)]))
      {| Action := "reset"; Team := EmptyString |}
      [1%positive] ∅ config_one gameState0
  ∧ broadcasts_state 1 (WellFormed (JObject [])) zeroMessage [1%positive] ∅
      config_one (gameState config_one)
  ∧ Unmarshal (WellFormed (JObject [("team", JBool true)])) = None
  ∧ step config_one (Receive 1 (WellFormed (JObject [("team", JBool true)])))
    = Some (emit [EvLog LogUnmarshalError] config_one).
Proof.
  destruct (typed_object_decodes
              [("Action", JString "reset"); ("extra", JNumber "1");
               ("team", JNull)] 1 config_one [1%positive] ∅)
    as (H1 & H2 & H3 & H4).
  - intros key v Hin Hfield.
    apply elem_of_cons in Hin as [Heq|Hin]; [simplify_eq; eauto|].
    apply elem_of_cons in Hin as [Heq|Hin];
      [simplify_eq; by destruct Hfield|].
    apply elem_of_cons in Hin as [Heq|Hin]; [simplify_eq; eauto|].
    by apply elem_of_nil in Hin.
  - reflexivity.
  - vm_compute. reflexivity.
  - split; [exact H1|]. split; [exact H2|]. split; [exact H3|].
    apply H4. exists "team", (JBool true).
    split; [by left|]. split; [by eexists|exact I].
Defined.

(** ** More on the shared state *)

Lemma applyMsg_increment msg gs :
  Action msg = "increment" ->
  Team msg = "A" ∨ Team msg = "B" ->
  int_min <= score (Team msg) gs < int_max ->
  applyMsg msg gs = with_score (Team msg) (score (Team msg) gs + 1) gs.
Proof.
  intros Ha Ht Hs. unfold applyMsg, score, with_score in *. rewrite Ha.
  destruct Ht as [Ht|Ht]; rewrite Ht in *; simpl in *;
    by rewrite wrap_id by (unfold int_max in *; lia).
Qed.

Lemma applyMsg_decrement msg gs :
  Action msg = "decrement" ->
  Team msg = "A" ∨ Team msg = "B" ->
  0 < score (Team msg) gs <= int_max ->
  applyMsg msg gs = with_score (Team msg) (score (Team msg) gs - 1) gs.
Proof.
  intros Ha Ht Hs. unfold applyMsg, score, with_score in *. rewrite Ha.
  destruct Ht as [Ht|Ht]; rewrite Ht in *; simpl in *.
  - destruct (0 <? ScoreA gs) eqn:E; [|lia].
    by rewrite wrap_id by (unfold int_min, int_max in *; lia).
  - destruct (0 <? ScoreB gs) eqn:E; [|lia].
    by rewrite wrap_id by (unfold int_min, int_max in *; lia).
Qed.

(** X1: an increment for team A or B whose score is below the largest
    [int] adds exactly one to that score, leaves the other score alone, and
    the new state is broadcast to every registered connection. *)
Theorem increment_adds_one_and_broadcasts c payload msg σ order failing :
  at_pc c σ = Some PcReading ->
  Unmarshal payload = Some msg ->
  Action msg = "increment" ->
  Team msg = "A" ∨ Team msg = "B" ->
  int_min <= score (Team msg) (gameState σ) < int_max ->
  order ≡ₚ elements (clients (hub σ)) ->
  broadcasts_state c payload msg order failing σ
    (with_score (Team msg) (score (Team msg) (gameState σ) + 1) (gameState σ)).
Proof.
  intros Hpc Hmsg Ha Ht Hs Hord.
  rewrite <- (applyMsg_increment msg (gameState σ)) by done.
  by apply broadcasts_after_decode.
Qed.

Lemma increment_adds_one_and_broadcasts_witness :
  broadcasts_state 1 (command "increment" "B")
    {| Action := "increment"; Team := "B" |} [1%positive] ∅ config_scored
    {| ScoreA := 2; ScoreB := 6 |}.
Proof.
  apply (increment_adds_one_and_broadcasts 1 (command "increment" "B")
           {| Action := "increment"; Team := "B" |} config_scored).
  - reflexivity.
  - reflexivity.
  - reflexivity.
  - by right.
  - vm_compute. split; [discriminate|reflexivity].
  - vm_compute. reflexivity.
Defined.

(** X2: a decrement for team A or B whose score is above 0 subtracts
    exactly one from that score, leaves the other score alone, and the new
    state is broadcast to every registered connection. *)
Theorem decrement_subtracts_one_and_broadcasts c payload msg σ order failing :
  at_pc c σ = Some PcReading ->
  Unmarshal payload = Some msg ->
  Action msg = "decrement" ->
  Team msg = "A" ∨ Team msg = "B" ->
  0 < score (Team msg) (gameState σ) <= int_max ->
  order ≡ₚ elements (clients (hub σ)) ->
  broadcasts_state c payload msg order failing σ
    (with_score (Team msg) (score (Team msg) (gameState σ) - 1) (gameState σ)).
Proof.
  intros Hpc Hmsg Ha Ht Hs Hord.
  rewrite <- (applyMsg_decrement msg (gameState σ)) by done.
  by apply broadcasts_after_decode.
Qed.

Lemma decrement_subtracts_one_and_broadcasts_witness :
  broadcasts_state 1 (command "decrement" "A")
    {| Action := "decrement"; Team := "A" |} [1%positive] ∅ config_scored
    {| ScoreA := 1; ScoreB := 5 |}.
Proof.
  apply (decrement_subtracts_one_and_broadcasts 1 (command "decrement" "A")
           {| Action := "decrement"; Team := "A" |} config_scored).
  - reflexivity.
  - reflexivity.
  - reflexivity.
  - by left.
  - vm_compute. split; [reflexivity|discriminate].
  - vm_compute. reflexivity.
Defined.

Lemma applyMsg_reset msg gs : Action msg = "reset" -> applyMsg msg gs = gameState0.
Proof. intros H. unfold applyMsg. by rewrite H. Qed.

(** X3: a reset sets both scores to 0 whatever the state and whatever
    team the command names, and the zero state is broadcast to every
    registered connection. *)
Theorem reset_zeroes_and_broadcasts c payload msg σ order failing :
  at_pc c σ = Some PcReading ->
  Unmarshal payload = Some msg ->
  Action msg = "reset" ->
  order ≡ₚ elements (clients (hub σ)) ->
  applyMsg msg (gameState σ) = gameState0
  ∧ broadcasts_state c payload msg order failing σ gameState0.
Proof.
  intros Hpc Hmsg Ha Hord.
  pose proof (applyMsg_reset msg (gameState σ) Ha) as Hreset.
  split; [done|].
  pose proof (broadcasts_after_decode c payload msg σ order failing Hpc Hmsg Hord)
    as Hb.
  by rewrite Hreset in Hb.
Qed.

Lemma reset_zeroes_and_broadcasts_witness :
  applyMsg {| Action := "reset"; Team := "B" |} (gameState config_scored)
  = gameState0
  ∧ broadcasts_state 1 (command "reset" "B")
      {| Action := "reset"; Team := "B" |} [1%positive] ∅ config_scored
      gameState0.
Proof.
  apply reset_zeroes_and_broadcasts.
  - reflexivity.
  - reflexivity.
  - reflexivity.
  - vm_compute. reflexivity.
Defined.

(** X4: an increment followed by a decrement of the same team, A or B,
    gives back the state, provided the score of that team is at least 0 and
    below the largest [int]. *)
Theorem increment_then_decrement team gs :
  team = "A" ∨ team = "B" ->
  0 <= score team gs < int_max ->
  applyMsg {| Action := "decrement"; Team := team |}
    (applyMsg {| Action := "increment"; Team := team |} gs) = gs.
Proof.
  unfold score, int_max. intros [-> | ->] Hs; simpl in Hs; destruct gs as [a b];
    unfold applyMsg; simpl in *.
  - rewrite wrap_id by (unfold int_min, int_max; lia).
    destruct (0 <? a + 1) eqn:E; [|lia]. simpl.
    rewrite wrap_id by (unfold int_min, int_max; lia). f_equal. lia.
  - rewrite wrap_id by (unfold int_min, int_max; lia).
    destruct (0 <? b + 1) eqn:E; [|lia]. simpl.
    rewrite wrap_id by (unfold int_min, int_max; lia). f_equal. lia.
Qed.

Lemma increment_then_decrement_witness :
  applyMsg {| Action := "decrement"; Team := "B" |}
    (applyMsg {| Action := "increment"; Team := "B" |}
       {| ScoreA := 2; ScoreB := 0 |})
  = {| ScoreA := 2; ScoreB := 0 |}.
Proof.
  apply (increment_then_decrement "B" {| ScoreA := 2; ScoreB := 0 |}).
  - by right.
  - vm_compute. split; [discriminate|reflexivity].
Defined.

Lemma snapshots_increments (cmds : list Message) :
  ∀ gs, Forall is_increment cmds ->
    0 <= ScoreA gs -> 0 <= ScoreB gs ->
    ScoreA gs + Z.of_nat (increments "A" cmds) <= int_max ->
    ScoreB gs + Z.of_nat (increments "B" cmds) <= int_max ->
    default gs (last (snapshots cmds gs))
    = {| ScoreA := ScoreA gs + Z.of_nat (increments "A" cmds);
         ScoreB := ScoreB gs + Z.of_nat (increments "B" cmds) |}.
Proof.
  unfold increments.
  induction cmds as [|m cmds IH]; intros gs Hall HA HB HmA HmB.
  - destruct gs; simpl. f_equal; lia.
  - apply Forall_cons in Hall as [[Hact Hteam] Hall].
    change (snapshots (m :: cmds) gs)
      with (applyMsg m gs :: snapshots cmds (applyMsg m gs)).
    assert (Hlast : default gs (last (applyMsg m gs :: snapshots cmds (applyMsg m gs)))
                    = default (applyMsg m gs) (last (snapshots cmds (applyMsg m gs)))).
    { generalize (snapshots cmds (applyMsg m gs)). intros [|g l]; [done|].
      rewrite last_cons_cons.
      destruct (last (g :: l)) eqn:E; [done|]. by apply last_None in E. }
    rewrite Hlast. rewrite filter_cons in HmA, HmB. rewrite !filter_cons.
    unfold int_max in *. destruct m as [act team]. simpl in *. subst act.
    destruct Hteam as [-> | ->];
      repeat (case_decide; try done); simpl in *.
    + assert (int_min <= ScoreA gs + 1 <= int_max)
        by (unfold int_min, int_max; lia).
      unfold applyMsg. simpl. rewrite wrap_id by done.
      rewrite IH; simpl; try done; try lia. f_equal; lia.
    + assert (int_min <= ScoreB gs + 1 <= int_max)
        by (unfold int_min, int_max; lia).
      unfold applyMsg. simpl. rewrite wrap_id by done.
      rewrite IH; simpl; try done; try lia. f_equal; lia.
Qed.

(** X5: no increment is lost.  After an execution whose decoded commands
    are all increments of A or B (at most the largest [int] of them),
    however the goroutines interleave, the score of each team is the number
    of increments that named it. *)
Theorem increments_are_all_counted sched σ :
  run init sched = Some σ ->
  Forall is_increment (commands sched) ->
  Z.of_nat (length (commands sched)) <= int_max ->
  gameState σ
  = {| ScoreA := Z.of_nat (increments "A" (commands sched));
       ScoreB := Z.of_nat (increments "B" (commands sched)) |}.
Proof.
  intros Hrun Hall Hlen.
  rewrite (run_gameState _ _ _ Hrun).
  assert (Hle : ∀ team, (increments team (commands sched) <= length (commands sched))%nat)
    by (intros team; apply length_filter).
  pose proof (Hle "A"). pose proof (Hle "B").
  rewrite snapshots_increments; simpl; try done; lia.
Qed.

Lemma increments_are_all_counted_witness :
  ∃ σ, run init sched_three_increments = Some σ
    ∧ gameState σ
      = {| ScoreA := Z.of_nat (increments "A" (commands sched_three_increments));
           ScoreB := Z.of_nat (increments "B" (commands sched_three_increments)) |}.
Proof.
  eexists. split; [vm_compute; reflexivity|].
  apply increments_are_all_counted.
  - vm_compute. reflexivity.
  - replace (commands sched_three_increments)
      with [incA; {| Action := "increment"; Team := "B" |}; incA]
      by (vm_compute; reflexivity).
    repeat (apply Forall_cons; split); try apply Forall_nil;
      unfold is_increment; simpl; auto.
  - vm_compute. discriminate.
Defined.

(** ** The serialized state *)

(** X6: the serialization sent to the clients determines the state: two
    states with the same serialization are equal. *)
Theorem Marshal_determines_state gs1 gs2 :
  Marshal gs1 = Marshal gs2 -> gs1 = gs2.
Proof.
  destruct gs1 as [a1 b1], gs2 as [a2 b2]. unfold Marshal. simpl.
  intros Heq. simplify_eq.
  change (pretty a1 +:+ String "," (quoted "scoreB" +:+ ":" +:+ pretty b1 +:+ "}")
          = pretty a2 +:+ String "," (quoted "scoreB" +:+ ":" +:+ pretty b2 +:+ "}"))
    in Heq.
  apply append_delimiter_inj in Heq as [Ha Heq];
    [|eapply all_chars_impl; [|apply pretty_Z_numeric]; by intros ? [??]..].
  simplify_eq.
  change (pretty b1 +:+ String "}" EmptyString
          = pretty b2 +:+ String "}" EmptyString) in Heq.
  apply append_delimiter_inj in Heq as [Hb _];
    [|eapply all_chars_impl; [|apply pretty_Z_numeric]; by intros ? [??]..].
  by simplify_eq.
Qed.

Lemma Marshal_determines_state_witness :
  {| ScoreA := 3; ScoreB := -1 |} = {| ScoreA := 3; ScoreB := -1 |}.
Proof. apply Marshal_determines_state. reflexivity. Defined.

(** ** Which payloads decode *)

(** X7: a payload decodes exactly when it is the JSON value null, or a
    JSON object all of whose members named action or team (up to case) are
    strings or null; anything else (malformed bytes, arrays, numbers,
    strings, booleans, an object with a member of the wrong type) is a
    decode failure. *)
Theorem decodable_payloads payload :
  is_Some (Unmarshal payload)
  ↔ payload = WellFormed JNull
    ∨ ∃ members, payload = WellFormed (JObject members) ∧ typed_members members.
Proof.
  split.
  - destruct payload as [raw|v]; simpl; [by intros []|].
    destruct v; try (by intros []); [by left|].
    intros Hsome. right. eexists. split; [done|].
    by eapply decode_members_Some_typed.
  - intros [->|(members & -> & Hty)]; [done|].
    simpl. by rewrite decode_members_typed.
Qed.

(** ** The outcome of a broadcast *)

Lemma broadcast_effect message failing order h c :
  order ≡ₚ elements (clients h) ->
  clients (broadcast message failing order h).1 = clients h ∖ failing
  ∧ received c (broadcast message failing order h).2
    = (if decide (c ∈ clients h ∧ c ∉ failing)
       then [(InBroadcast, message)] else [])
  ∧ closes c (broadcast message failing order h).2
    = (if decide (c ∈ clients h ∧ c ∈ failing) then [InBroadcast] else []).
Proof.
  intros Hord. rewrite broadcast_spec by done.
  apply order_elements in Hord as [Hnd Hin]. simpl.
  split; [done|]. rewrite received_visits, closes_visits by done.
  split; apply (decide_ext _ _); by rewrite Hin.
Qed.

(** X8: a broadcast leaves in the registry exactly the clients whose write
    did not fail; a registered client whose write succeeds receives the
    message exactly once, one whose write fails is closed exactly once, and
    a client that is not registered is neither written to nor closed. *)
Theorem broadcast_outcome message failing order h c :
  order ≡ₚ elements (clients h) ->
  clients (broadcast message failing order h).1 = clients h ∖ failing
  ∧ received c (broadcast message failing order h).2
    = (if decide (c ∈ clients h ∧ c ∉ failing)
       then [(InBroadcast, message)] else [])
  ∧ closes c (broadcast message failing order h).2
    = (if decide (c ∈ clients h ∧ c ∈ failing) then [InBroadcast] else []).
Proof. apply broadcast_effect. Qed.

Lemma broadcast_outcome_witness :
  clients (broadcast "s" {[1%positive]} [1%positive; 2%positive] hub_two).1
  = clients hub_two ∖ {[1%positive]}
  ∧ received 2 (broadcast "s" {[1%positive]} [1%positive; 2%positive] hub_two).2
    = (if decide (2%positive ∈ clients hub_two ∧ 2%positive ∉ ({[1%positive]} : gset Client))
       then [(InBroadcast, "s")] else [])
  ∧ closes 2 (broadcast "s" {[1%positive]} [1%positive; 2%positive] hub_two).2
    = (if decide (2%positive ∈ clients hub_two ∧ 2%positive ∈ ({[1%positive]} : gset Client))
       then [InBroadcast] else []).
Proof.
  apply broadcast_outcome. vm_compute. apply perm_swap.
Defined.

(** X9: the order in which [range] produces the clients does not matter:
    two broadcasts of the same message from the same registry leave the
    same registry, and every client receives the same messages and is
    closed as often in both. *)
Theorem broadcast_order_irrelevant message failing order1 order2 h :
  order1 ≡ₚ elements (clients h) ->
  order2 ≡ₚ elements (clients h) ->
  (broadcast message failing order1 h).1 = (broadcast message failing order2 h).1
  ∧ ∀ c, received c (broadcast message failing order1 h).2
         = received c (broadcast message failing order2 h).2
       ∧ closes c (broadcast message failing order1 h).2
         = closes c (broadcast message failing order2 h).2.
Proof.
  intros H1 H2. split.
  - by rewrite !broadcast_spec.
  - intros c.
    destruct (broadcast_effect message failing order1 h c H1) as (_ & -> & ->).
    destruct (broadcast_effect message failing order2 h c H2) as (_ & -> & ->).
    done.
Qed.

Lemma broadcast_order_irrelevant_witness :
  (broadcast "s" {[1%positive]} [1%positive; 2%positive] hub_two).1
  = (broadcast "s" {[1%positive]} [2%positive; 1%positive] hub_two).1
  ∧ ∀ c, received c (broadcast "s" {[1%positive]} [1%positive; 2%positive] hub_two).2
         = received c (broadcast "s" {[1%positive]} [2%positive; 1%positive] hub_two).2
       ∧ closes c (broadcast "s" {[1%positive]} [1%positive; 2%positive] hub_two).2
         = closes c (broadcast "s" {[1%positive]} [2%positive; 1%positive] hub_two).2.
Proof.
  apply broadcast_order_irrelevant.
  - vm_compute. apply perm_swap.
  - vm_compute. reflexivity.
Defined.

(** ** The registry in the executions *)

(** X10: in every execution, a client that is in the registry has its
    goroutine in [serveWs] or in the read loop, and its connection has
    never been closed nor deleted from the registry. *)
Theorem registered_clients_are_open sched σ c :
  run init sched = Some σ ->
  c ∈ clients (hub σ) ->
  live (at_pc c σ) ∧ closes c (trace σ) = [] ∧ EvDelete c ∉ trace σ.
Proof.
  intros Hrun Hc.
  assert (Hr : reachable σ) by (eapply run_reachable; [constructor|done]).
  split; [by apply hub_live|]. by apply member_open.
Qed.

Lemma registered_clients_are_open_witness :
  ∃ σ, run init sched_two = Some σ
    ∧ live (at_pc 2 σ) ∧ closes 2 (trace σ) = [] ∧ EvDelete 2 ∉ trace σ.
Proof.
  eexists. split; [vm_compute; reflexivity|].
  apply (registered_clients_are_open sched_two).
  - vm_compute. reflexivity.
  - vm_compute. reflexivity.
Defined.

Lemma heard_app c evs1 evs2 : heard c (evs1 ++ evs2) = heard c evs1 ++ heard c evs2.
Proof. apply omap_app. Qed.

Lemma heard_visits c message failing (order : list Client) :
  NoDup order ->
  heard c (order ≫= visit message failing)
  = if decide (c ∈ order ∧ c ∉ failing) then [message] else [].
Proof.
  unfold heard. induction order as [|c' order IH]; intros Hnd.
  - rewrite decide_False; [done|]. intros [H _]. by apply elem_of_nil in H.
  - apply NoDup_cons in Hnd as [Hc' Hnd]. rewrite bind_cons, omap_app, IH by done.
    unfold visit. destruct (decide (c' ∈ failing)) as [Hf|Hf]; simpl.
    + apply (decide_ext _ _). rewrite elem_of_cons. naive_solver.
    + destruct (decide (c' = c)) as [->|Hne]; simpl.
      * rewrite decide_False by tauto. rewrite decide_True; [done|]. split; [left|done].
      * apply (decide_ext _ _). rewrite elem_of_cons. naive_solver.
Qed.

Lemma step_accepted c σ s σ' :
  is_Some (at_pc c σ) -> step σ s = Some σ' -> is_Some (at_pc c σ').
Proof.
  intros Hpc Hstep%step_iff.
  destruct Hstep; simpl; at_pc_simpl; try case_decide; done.
Qed.

Lemma step_hub_back c σ s σ' :
  is_Some (at_pc c σ) -> step σ s = Some σ' ->
  c ∈ clients (hub σ') -> c ∈ clients (hub σ).
Proof.
  intros Hpc Hstep%step_iff.
  destruct Hstep; simpl; try done; try set_solver.
  intros [->%elem_of_singleton|?]%elem_of_union; [|done].
  rewrite H in Hpc. by destruct Hpc.
Qed.

Lemma run_hub_back c (sched : list Step) :
  ∀ σ σ', is_Some (at_pc c σ) -> run σ sched = Some σ' ->
    c ∈ clients (hub σ') -> c ∈ clients (hub σ).
Proof.
  induction sched as [|s sched IH]; simpl; intros σ σ' Hpc Hrun Hc.
  - by simplify_eq.
  - destruct (step σ s) as [σ1|] eqn:Hs; [|done].
    eapply step_hub_back; [done..|].
    eapply IH; [|done..]. by eapply step_accepted.
Qed.

Lemma step_heard c σ s σ' :
  step σ s = Some σ' ->
  c ∈ clients (hub σ) -> c ∈ clients (hub σ') ->
  ∃ evs, trace σ' = trace σ ++ evs ∧ heard c evs = broadcast_payload σ s.
Proof.
  intros Hstep%step_iff Hc Hc'. destruct Hstep; simpl in *.
  7: { eexists; split; [reflexivity|]. rewrite H.
       apply order_elements in H0 as [Hnd Hord].
       rewrite heard_app, heard_visits by done.
       rewrite decide_True; [done|]. rewrite Hord. set_solver. }
  3, 6: exists []; by rewrite app_nil_r.
  all: eexists; (split; [reflexivity|]); try destruct unexpected; try done.
Qed.

Lemma run_heard c (sched : list Step) :
  ∀ σ σ', is_Some (at_pc c σ) -> run σ sched = Some σ' ->
    c ∈ clients (hub σ') ->
    ∃ evs, trace σ' = trace σ ++ evs ∧ heard c evs = broadcasts σ sched.
Proof.
  induction sched as [|s sched IH]; simpl; intros σ σ' Hpc Hrun Hc.
  - simplify_eq. exists []. by rewrite app_nil_r.
  - destruct (step σ s) as [σ1|] eqn:Hs; [|done].
    pose proof (step_accepted c _ _ _ Hpc Hs) as Hpc1.
    pose proof (run_hub_back c sched _ _ Hpc1 Hrun Hc) as Hc1.
    pose proof (step_hub_back c _ _ _ Hpc Hs Hc1) as Hc0.
    destruct (step_heard c _ _ _ Hs Hc0 Hc1) as (evs1 & E1 & H1).
    destruct (IH _ _ Hpc1 Hrun Hc) as (evs2 & E2 & H2).
    exists (evs1 ++ evs2). rewrite E2, E1, app_assoc. split; [done|].
    by rewrite heard_app, H1, H2.
Qed.

(** X11: a client that is in the registry at two points of an execution
    between which no broadcast may overlap a write of [serveWs] has
    received, between them, the payload of every broadcast made in between,
    each exactly once and in the order in which the broadcasts held the
    lock of the registry; two such clients have received the same
    payloads in the same order. *)
Theorem registered_client_hears_every_broadcast sched σ c sched' σ' :
  run init sched = Some σ ->
  c ∈ clients (hub σ) ->
  run σ sched' = Some σ' ->
  calm σ sched' = true ->
  c ∈ clients (hub σ') ->
  ∃ evs, trace σ' = trace σ ++ evs
    ∧ heard c evs = broadcasts σ sched'
    ∧ ∀ c', c' ∈ clients (hub σ) -> c' ∈ clients (hub σ') ->
        heard c' evs = heard c evs.
Proof.
  intros Hrun Hc Hrun' _ Hc'.
  assert (Hr : reachable σ) by (eapply run_reachable; [constructor|done]).
  assert (Hacc : ∀ k, k ∈ clients (hub σ) -> is_Some (at_pc k σ)).
  { intros k Hk. apply (hub_live σ Hr) in Hk. by destruct (at_pc k σ). }
  destruct (run_heard c sched' σ σ' (Hacc c Hc) Hrun' Hc') as (evs & E & H).
  exists evs. split; [done|]. split; [done|].
  intros c' Hk Hk'.
  destruct (run_heard c' sched' σ σ' (Hacc c' Hk) Hrun' Hk') as (evs' & E' & H').
  rewrite E in E'. apply app_inv_head in E'. subst evs'. by rewrite H, H'.
Qed.

Lemma registered_client_hears_every_broadcast_witness :
  ∃ σ σ',
    run init sched_two = Some σ
    ∧ run σ sched_two_broadcasts = Some σ'
    ∧ ∃ evs, trace σ' = trace σ ++ evs
        ∧ heard 2 evs = broadcasts σ sched_two_broadcasts
        ∧ ∀ c', c' ∈ clients (hub σ) -> c' ∈ clients (hub σ') ->
            heard c' evs = heard 2 evs.
Proof.
  eexists _, _. split; [vm_compute; reflexivity|].
  split; [vm_compute; reflexivity|].
  apply (registered_client_hears_every_broadcast sched_two _ 2
           sched_two_broadcasts); vm_compute; reflexivity.
Defined.

(** ** What is written is a state that occurred *)

Lemma write_in_visits site c p ok message failing (order : list Client) :
  EvWrite site c p ok ∈ order ≫= visit message failing -> p = message.
Proof.
  intros (c' & _ & Hin)%elem_of_visits. unfold visit in Hin.
  case_decide; set_solver.
Qed.

Lemma step_honest H σ s σ' :
  honest H σ -> step σ s = Some σ' -> H (gameState σ') -> honest H σ'.
Proof.
  intros (Hgs & Hini & Hupd & Htr) Hstep%step_iff Hgs'.
  split; [done|]. destruct Hstep; simpl in *.
  all: repeat split; intros; at_pc_simpl;
    repeat match goal with
    | H : context [at_pc _ (goto _ _ _)] |- _ => rewrite at_pc_goto in H
    | H : context [at_pc _ (emit _ _)] |- _ => rewrite at_pc_emit in H
    | H : context [at_pc _ (set_hub _ _)] |- _ => rewrite at_pc_set_hub in H
    | H : context [at_pc _ (set_gameState _ _)] |- _ => rewrite at_pc_set_gameState in H
    | H : context [decide (?a = ?b)] |- _ => destruct (decide (a = b)); simplify_eq
    | H : _ ∈ _ ++ _ |- _ => apply elem_of_app in H as [H|H]
    end; eauto.
  all: try (exists (gameState σ); by split).
  all: try (eexists; split; [exact Hgs'|done]).
  all: try (destruct unexpected; set_solver).
  all: try set_solver.
  match goal with
  | Hw : EvWrite _ _ _ _ ∈ _ ≫= _ |- _ => apply write_in_visits in Hw as ->
  end.
  eauto.
Qed.

Lemma run_honest H (sched : list Step) :
  ∀ σ σ', honest H σ -> run σ sched = Some σ' ->
    (∀ gs, gs ∈ snapshots (commands sched) (gameState σ) -> H gs) ->
    honest H σ'.
Proof.
  induction sched as [|s sched IH]; simpl; intros σ σ' Hh Hrun Hsnap.
  - by simplify_eq.
  - destruct (step σ s) as [σ1|] eqn:Hs; [|done].
    pose proof (step_gameState _ _ _ Hs) as Hgs1.
    change (commands (s :: sched))
      with (match decoded s with
            | Some msg => msg :: commands sched
            | None => commands sched
            end) in Hsnap.
    destruct (decoded s) as [msg|].
    + simpl in Hsnap. rewrite <- Hgs1 in Hsnap.
      apply (IH σ1 σ'); [|done|].
      * eapply step_honest; [done..|]. apply Hsnap. by left.
      * intros gs Hin. apply Hsnap. by right.
    + rewrite <- Hgs1 in Hsnap.
      apply (IH σ1 σ'); [|done..].
      eapply step_honest; [done..|]. rewrite Hgs1. apply Hh.
Qed.

(** X12: every payload written to a client, by [serveWs] or by a
    broadcast, is the serialization of the initial state or of the state
    after one of the commands decoded in the execution. *)
Theorem every_payload_is_a_past_state sched σ site c p ok :
  run init sched = Some σ ->
  EvWrite site c p ok ∈ trace σ ->
  ∃ gs, gs ∈ states sched ∧ p = Marshal gs.
Proof.
  intros Hrun Hin.
  assert (Hh : honest (λ gs, gs ∈ states sched) σ).
  { apply (run_honest _ sched init σ); [|done|].
    - split; [by left|]. repeat split; intros; try done.
      by apply elem_of_nil in H.
    - intros gs Hgs. by right. }
  destruct Hh as (_ & _ & _ & Htr). by apply (Htr site c p ok).
Qed.


Lemma every_payload_is_a_past_state_witness :
  ∃ σ, run init (sched_two ++ sched_two_broadcasts) = Some σ
    ∧ ∃ gs, gs ∈ states (sched_two ++ sched_two_broadcasts)
            ∧ Marshal {| ScoreA := 1; ScoreB := 0 |} = Marshal gs.
Proof.
  eexists. split; [vm_compute; reflexivity|].
  eapply (every_payload_is_a_past_state (sched_two ++ sched_two_broadcasts) _
            InBroadcast 2 (Marshal {| ScoreA := 1; ScoreB := 0 |}) true).
  - vm_compute. reflexivity.
  - apply list_elem_of_In. vm_compute. do 6 right. left. reflexivity.
Defined.
(** ** The initial state is sent once *)

Lemma initial_writes_app c evs1 evs2 :
  initial_writes c (evs1 ++ evs2) = initial_writes c evs1 ++ initial_writes c evs2.
Proof. apply omap_app. Qed.

Lemma initial_writes_visits c message failing (order : list Client) :
  initial_writes c (order ≫= visit message failing) = [].
Proof.
  unfold initial_writes. induction order as [|c' order IH]; [done|].
  rewrite bind_cons, omap_app, IH. unfold visit. by case_decide.
Qed.

Lemma initial_writes_step c σ s σ' :
  step σ s = Some σ' ->
  length (initial_writes c (trace σ))
  = (if has_started (at_pc c σ) then 1 else 0)%nat ->
  length (initial_writes c (trace σ'))
  = (if has_started (at_pc c σ') then 1 else 0)%nat.
Proof.
  intros Hstep%step_iff Hinv.
  destruct Hstep; simpl; at_pc_simpl; rewrite ?initial_writes_app, ?length_app,
    ?initial_writes_visits, ?Hinv; simpl;
    try destruct unexpected; simpl;
    try (destruct (decide (c0 = c)) as [->|Hne]; simpl; rewrite ?H; simpl);
    try lia.
  all: unfold initial_writes; simpl; rewrite ?decide_False by done; simpl; try lia.
Qed.

Lemma initial_writes_reachable c σ :
  reachable σ ->
  length (initial_writes c (trace σ))
  = (if has_started (at_pc c σ) then 1 else 0)%nat.
Proof.
  induction 1 as [|σ s σ' _ IH Hstep]; [done|].
  by eapply initial_writes_step.
Qed.

(** X18: in every execution, whatever the interleaving, [serveWs] has
    written the initial state to a client exactly once when the read loop
    of the client has been started, and not at all before. *)
Theorem initial_state_is_sent_once sched σ c :
  run init sched = Some σ ->
  length (initial_writes c (trace σ))
  = (if has_started (at_pc c σ) then 1 else 0)%nat.
Proof.
  intros Hrun. apply initial_writes_reachable.
  eapply run_reachable; [constructor|done].
Qed.

Lemma initial_state_is_sent_once_witness :
  ∃ σ, run init sched_write_after_removal = Some σ
    ∧ length (initial_writes 2 (trace σ))
      = (if has_started (at_pc 2 σ) then 1 else 0)%nat.
Proof.
  eexists. split; [vm_compute; reflexivity|].
  apply (initial_state_is_sent_once sched_write_after_removal).
  vm_compute. reflexivity.
Defined.

End ScoreServerFacts.

Module ServerlessFacts.
Import Serverless.

(** ** The serverless variant *)

Lemma step_simulators σ s σ' :
  step σ s = Some σ' ->
  length (simulators σ')
  = (length (simulators σ) + accepted [s])%nat.
Proof.
  destruct s; simpl; intros H; repeat case_match; simplify_eq; simpl;
    rewrite ?length_app, ?length_insert; simpl; lia.
Qed.

Lemma run_simulators (sched : list Step) :
  ∀ σ σ', run σ sched = Some σ' ->
    length (simulators σ') = (length (simulators σ) + accepted sched)%nat.
Proof.
  induction sched as [|s sched IH]; simpl; intros σ σ' Hrun.
  - simplify_eq. lia.
  - destruct (step σ s) as [σ1|] eqn:Hs; [|done].
    apply step_simulators in Hs. apply IH in Hrun. rewrite Hrun, Hs.
    destruct s; simpl; lia.
Qed.

(** [Handler] registers the connection and writes nothing to it. *)
Lemma Handler_registers_silently : registers_silently.
Proof.
  intros σ c σ'. simpl. intros H. destruct (pcs σ !! c); [done|].
  by simplify_eq.
Qed.

(** The first message of a connection of the serverless variant comes from
    a simulator. *)
Lemma first_message_from_simulator :
  received 1 ∘ trace <$> run init [Accept 1; Tick 0 0 [1%positive] ∅]
  = Some [score_line {| homeScore := 1; awayScore := 0 |}].
Proof. vm_compute. reflexivity. Qed.

(** C9, as stated, fails: [Handler] starts a simulator for each connection
    it accepts, so two connections leave two simulators running. *)
Lemma two_connections_two_simulators :
  ∃ σ, run init [Accept 1; Accept 2] = Some σ ∧ ¬ at_most_one_simulator σ.
Proof.
  eexists. split; [vm_compute; reflexivity|].
  unfold at_most_one_simulator. simpl. lia.
Qed.

(** C9 (amended): at every point of an execution the number of simulator
    goroutines running equals the number of connections [Handler] has
    accepted so far: one is started per accepted connection and none ever
    stops. *)
Theorem one_simulator_per_accepted_connection sched σ :
  run init sched = Some σ ->
  length (simulators σ) = accepted sched.
Proof. intros Hrun. by apply run_simulators in Hrun. Qed.

Lemma one_simulator_per_accepted_connection_witness :
  ∃ σ, run init [Accept 1; Tick 0 7 [1%positive] ∅; Accept 2; ReadError 1]
       = Some σ
    ∧ length (simulators σ)
      = accepted [Accept 1; Tick 0 7 [1%positive] ∅; Accept 2; ReadError 1].
Proof.
  eexists. split; [vm_compute; reflexivity|].
  apply one_simulator_per_accepted_connection. vm_compute. reflexivity.
Defined.

(** ** Ticks *)

Lemma range_clients_visits (score : string) (failing : gset Client)
    (order : list Client) :
  ∀ cs : gset Client,
    NoDup order -> (∀ c, c ∈ order -> c ∈ cs) ->
    range_clients score failing order cs
    = (cs ∖ (failing ∩ list_to_set order), order ≫= visit score failing).
Proof.
  induction order as [|c order IH]; intros cs Hnd Hsub; simpl.
  - f_equal. set_solver.
  - apply NoDup_cons in Hnd as [Hc Hnd].
    destruct (decide (c ∈ cs)) as [_|Hn]; [|exfalso; apply Hn, Hsub; left].
    unfold visit at 1. destruct (decide (c ∈ failing)) as [Hf|Hf].
    + rewrite IH; [|done|].
      * simpl. f_equal. set_solver.
      * intros c' Hc'. apply elem_of_difference. split; [apply Hsub; by right|].
        intros ->%elem_of_singleton. done.
    + rewrite IH; [|done|intros c' Hc'; apply Hsub; by right].
      simpl. f_equal. set_solver.
Qed.

Lemma range_clients_elements score failing (order : list Client) (cs : gset Client) :
  order ≡ₚ elements cs ->
  range_clients score failing order cs
  = (cs ∖ failing, order ≫= visit score failing).
Proof.
  intros Hp.
  assert (Hnd : NoDup order) by (rewrite Hp; apply NoDup_elements).
  assert (Hin : ∀ c, c ∈ order ↔ c ∈ cs)
    by (intros c; rewrite Hp; apply elem_of_elements).
  rewrite range_clients_visits; [|done|intros c; apply Hin].
  f_equal. apply set_eq. intros c.
  rewrite !elem_of_difference, elem_of_intersection, elem_of_list_to_set, Hin.
  tauto.
Qed.

Lemma received_tick_visits c score failing (order : list Client) :
  NoDup order ->
  received c (order ≫= visit score failing)
  = if decide (c ∈ order ∧ c ∉ failing) then [score] else [].
Proof.
  unfold received. induction order as [|c' order IH]; intros Hnd.
  - rewrite decide_False; [done|]. intros [H _]. by apply elem_of_nil in H.
  - apply NoDup_cons in Hnd as [Hc' Hnd]. rewrite bind_cons, omap_app, IH by done.
    unfold visit. destruct (decide (c' ∈ failing)) as [Hf|Hf]; simpl.
    + apply (decide_ext _ _). rewrite elem_of_cons. naive_solver.
    + destruct (decide (c' = c)) as [->|Hne]; simpl.
      * rewrite decide_False by tauto. rewrite decide_True; [done|]. split; [left|done].
      * apply (decide_ext _ _). rewrite elem_of_cons. naive_solver.
Qed.

(** X13: a tick of a simulator updates its scores, writes the new score
    line once to every registered connection, removes from the registry
    exactly the connections whose write failed and leaves the handlers
    alone; a connection receives the line when it is registered and its
    write succeeds, and nothing otherwise. *)
Theorem tick_outcome σ i sim unix order failing :
  simulators σ !! i = Some sim ->
  order ≡ₚ elements (clients σ) ->
  ∃ σ' evs,
    step σ (Tick i unix order failing) = Some σ'
    ∧ clients σ' = clients σ ∖ failing
    ∧ simulators σ' = <[i := tick unix sim]> (simulators σ)
    ∧ pcs σ' = pcs σ
    ∧ trace σ' = trace σ ++ evs
    ∧ ∀ c, received c evs
           = if decide (c ∈ clients σ ∧ c ∉ failing)
             then [score_line (tick unix sim)] else [].
Proof.
  intros Hsim Hord. eexists _, _. split.
  - simpl. rewrite Hsim. rewrite decide_True by done.
    rewrite range_clients_elements by done. reflexivity.
  - simpl. repeat (split; [done|]). intros c.
    rewrite received_tick_visits by (rewrite Hord; apply NoDup_elements).
    apply (decide_ext _ _). rewrite Hord, elem_of_elements. done.
Qed.

Lemma run_snoc (sched : list Step) :
  ∀ σ s, run σ (sched ++ [s]) = run σ sched ≫= λ σ', step σ' s.
Proof.
  induction sched as [|s0 sched IH]; intros σ s; simpl.
  - by destruct (step σ s).
  - destruct (step σ s0); [apply IH|done].
Qed.

Lemma ticks_of_app i sched1 sched2 :
  ticks_of i (sched1 ++ sched2) = (ticks_of i sched1 + ticks_of i sched2)%nat.
Proof.
  induction sched1 as [|s sched1 IH]; [done|]. simpl.
  destruct s; try done. case_decide; simpl; by rewrite IH.
Qed.

Lemma ticks_of_le i sched : (ticks_of i sched <= length sched)%nat.
Proof.
  induction sched as [|s sched IH]; [done|]. simpl.
  destruct s; try lia. case_decide; lia.
Qed.

Lemma tick_total unix sim :
  0 <= homeScore sim -> 0 <= awayScore sim ->
  homeScore sim + awayScore sim < int_max ->
  0 <= homeScore (tick unix sim) ∧ 0 <= awayScore (tick unix sim)
  ∧ homeScore (tick unix sim) + awayScore (tick unix sim)
    = homeScore sim + awayScore sim + 1.
Proof.
  intros Hh Ha Hsum. unfold tick, int_max in *.
  case_match; simpl; rewrite wrap_id by (unfold int_min, int_max; lia); lia.
Qed.

Lemma step_simulators_eq σ s σ' :
  step σ s = Some σ' ->
  simulators σ'
  = match s with
    | Accept _ => simulators σ ++ [{| homeScore := 0; awayScore := 0 |}]
    | Tick i unix _ _ =>
        match simulators σ !! i with
        | Some sim => <[i := tick unix sim]> (simulators σ)
        | None => simulators σ
        end
    | _ => simulators σ
    end.
Proof.
  destruct s; simpl; intros Hstep; repeat case_match; by simplify_eq.
Qed.

Lemma step_counts_ticks sched σ s σ' :
  Z.of_nat (length sched) < int_max ->
  counts_ticks sched σ -> step σ s = Some σ' ->
  counts_ticks (sched ++ [s]) σ'.
Proof.
  intros Hlen Hinv Hstep i. specialize (Hinv i) as Hi.
  rewrite ticks_of_app, (step_simulators_eq _ _ _ Hstep).
  destruct s as [|c|c|c|c|k unix order failing]; simpl;
    rewrite ?Nat.add_0_r; try done.
  - (* Accept *)
    destruct (simulators σ !! i) as [sim|] eqn:E.
    + by rewrite (lookup_app_l_Some _ _ _ _ E).
    + apply lookup_ge_None in E.
      destruct (decide (i = length (simulators σ))) as [->|Hne].
      * rewrite list_lookup_middle by done. simpl. rewrite Hi. lia.
      * rewrite lookup_ge_None_2; [done|]. rewrite length_app. simpl. lia.
  - (* Tick *)
    destruct (simulators σ !! k) as [simk|] eqn:Hk;
      [|simpl in Hstep; by rewrite Hk in Hstep].
    destruct (decide (k = i)) as [->|Hne].
    + rewrite Hk in Hi. destruct Hi as (Hh & Ha & Hsum).
      rewrite list_lookup_insert_eq by (by eapply lookup_lt_Some).
      pose proof (ticks_of_le i sched).
      destruct (tick_total unix simk) as (? & ? & ?); [done|done|lia|].
      repeat split; [done|done|lia].
    + rewrite list_lookup_insert_ne by done.
      destruct (simulators σ !! i); [|lia].
      destruct Hi as (? & ? & ?). repeat split; [done|done|lia].
Qed.

Lemma run_counts_ticks (sched : list Step) :
  ∀ σ, Z.of_nat (length sched) <= int_max ->
    run init sched = Some σ -> counts_ticks sched σ.
Proof.
  induction sched as [|s sched IH] using rev_ind; intros σ Hlen Hrun.
  - simpl in Hrun. simplify_eq. intros i. by simpl.
  - rewrite run_snoc in Hrun. rewrite length_app in Hlen. simpl in Hlen.
    destruct (run init sched) as [σ0|] eqn:E; [|done]. simpl in Hrun.
    eapply step_counts_ticks; [lia| |done]. apply IH; [lia|done].
Qed.

(** X14: in every execution of at most the largest [int] steps, the two
    scores of a simulator are non-negative and their sum is the number of
    its ticks so far: each tick adds one to exactly one of them. *)
Theorem simulator_counts_its_ticks sched σ i sim :
  run init sched = Some σ ->
  Z.of_nat (length sched) <= int_max ->
  simulators σ !! i = Some sim ->
  0 <= homeScore sim ∧ 0 <= awayScore sim
  ∧ homeScore sim + awayScore sim = Z.of_nat (ticks_of i sched).
Proof.
  intros Hrun Hlen Hsim.
  pose proof (run_counts_ticks sched σ Hlen Hrun i) as Hi.
  by rewrite Hsim in Hi.
Qed.

Lemma registered_reading σ :
  ∀ sched, run init sched = Some σ ->
    ∀ c, c ∈ clients σ -> pcs σ !! c = Some PcReading.
Proof.
  intros sched. revert σ.
  induction sched as [|s sched IH] using rev_ind; intros σ Hrun c.
  - simpl in Hrun. simplify_eq. set_solver.
  - rewrite run_snoc in Hrun.
    destruct (run init sched) as [σ0|] eqn:E; [|done]. simpl in Hrun.
    specialize (IH σ0 eq_refl).
    destruct s; simpl in Hrun; repeat case_match; simplify_eq; simpl;
      intros Hin.
    + by apply IH.
    + destruct (decide (c0 = c)) as [->|Hne].
      * by rewrite lookup_insert_eq.
      * rewrite lookup_insert_ne by done. apply IH. set_solver.
    + by apply IH.
    + destruct (decide (c0 = c)) as [->|Hne]; [set_solver|].
      rewrite lookup_insert_ne by done. apply IH. set_solver.
    + assert (c0 ≠ c).
      { intros ->. apply IH in Hin. congruence. }
      rewrite lookup_insert_ne by done. by apply IH.
    + apply IH.
      match goal with
      | Hp : _ ≡ₚ elements _ |- _ =>
          rewrite range_clients_elements in Hin by exact Hp
      end.
      simpl in Hin. set_solver.
Qed.

Lemma write_in_tick_visits c m ok score failing (order : list Client) :
  EvWrite c m ok ∈ order ≫= visit score failing -> c ∈ order.
Proof.
  intros (c' & Hin & Hc')%list_elem_of_bind. unfold visit in Hin.
  case_decide; set_solver.
Qed.

(** X15: in every execution of the serverless variant, a connection that
    is in [clients] has its handler in the read loop. *)
Theorem registered_connections_are_reading sched σ c :
  run init sched = Some σ ->
  c ∈ clients σ ->
  pcs σ !! c = Some PcReading.
Proof. intros Hrun Hc. by apply (registered_reading σ sched). Qed.

(** X16: a tick never writes to a connection whose handler is not in its
    read loop (it has left it, or the connection was never accepted). *)
Theorem left_connection_is_never_written sched σ c i unix order failing σ' :
  run init sched = Some σ ->
  pcs σ !! c ≠ Some PcReading ->
  step σ (Tick i unix order failing) = Some σ' ->
  ∃ evs, trace σ' = trace σ ++ evs ∧ ∀ m ok, EvWrite c m ok ∉ evs.
Proof.
  intros Hrun Hpc Hstep. simpl in Hstep.
  destruct (simulators σ !! i) as [sim|]; [|done].
  case_decide as Hord; [|done]. simplify_eq. simpl.
  eexists. split; [reflexivity|]. intros m ok.
  rewrite range_clients_elements by done. simpl.
  intros Hin%write_in_tick_visits.
  apply Hpc, (registered_reading σ sched Hrun).
  by rewrite Hord, elem_of_elements in Hin.
Qed.

(** X17: the score line sent by a simulator determines its two scores. *)
Theorem score_line_determines_scores sim1 sim2 :
  score_line sim1 = score_line sim2 -> sim1 = sim2.
Proof.
  destruct sim1 as [h1 a1], sim2 as [h2 a2]. unfold score_line. simpl.
  intros Heq. simplify_eq.
  change (pretty h1 +:+ String "," (" " +:+ quoted "away" +:+ ": " +:+ pretty a1 +:+ "}")
          = pretty h2 +:+ String "," (" " +:+ quoted "away" +:+ ": " +:+ pretty a2 +:+ "}"))
    in Heq.
  apply append_delimiter_inj in Heq as [Ha Heq];
    [|eapply all_chars_impl; [|apply pretty_Z_numeric]; by intros ? [??]..].
  simplify_eq.
  change (pretty a1 +:+ String "}" EmptyString
          = pretty a2 +:+ String "}" EmptyString) in Heq.
  apply append_delimiter_inj in Heq as [Hb _];
    [|eapply all_chars_impl; [|apply pretty_Z_numeric]; by intros ? [??]..].
  by simplify_eq.
Qed.

Lemma simulator_counts_its_ticks_witness :
  ∃ σ sim, run init sched_ticks = Some σ
    ∧ simulators σ !! 0%nat = Some sim
    ∧ 0 <= homeScore sim ∧ 0 <= awayScore sim
    ∧ homeScore sim + awayScore sim = Z.of_nat (ticks_of 0 sched_ticks).
Proof.
  eexists _, _. split; [vm_compute; reflexivity|].
  split; [vm_compute; reflexivity|].
  eapply (simulator_counts_its_ticks sched_ticks).
  - vm_compute. reflexivity.
  - vm_compute. discriminate.
  - vm_compute. reflexivity.
Defined.

Lemma registered_connections_are_reading_witness :
  ∃ σ, run init sched_ticks = Some σ ∧ pcs σ !! 1%positive = Some PcReading.
Proof.
  eexists. split; [vm_compute; reflexivity|].
  apply (registered_connections_are_reading sched_ticks).
  - vm_compute. reflexivity.
  - vm_compute. reflexivity.
Defined.

Lemma left_connection_is_never_written_witness :
  ∃ σ σ', run init sched_ticks = Some σ
    ∧ step σ (Tick 1 13 [1%positive] ∅) = Some σ'
    ∧ ∃ evs, trace σ' = trace σ ++ evs ∧ ∀ m ok, EvWrite 2 m ok ∉ evs.
Proof.
  eexists _, _. split; [vm_compute; reflexivity|].
  split; [vm_compute; reflexivity|].
  apply (left_connection_is_never_written sched_ticks _ 2 1 13 [1%positive] ∅).
  - vm_compute. reflexivity.
  - vm_compute. discriminate.
  - vm_compute. reflexivity.
Defined.

Lemma tick_outcome_witness :
  ∃ σ' evs,
    step config_ticking (Tick 0 7 [1%positive; 2%positive] {[1%positive]}) = Some σ'
    ∧ clients σ' = clients config_ticking ∖ {[1%positive]}
    ∧ simulators σ'
      = <[0%nat := tick 7 {| homeScore := 3; awayScore := 1 |}]>
          (simulators config_ticking)
    ∧ pcs σ' = pcs config_ticking
    ∧ trace σ' = trace config_ticking ++ evs
    ∧ ∀ c, received c evs
           = if decide (c ∈ clients config_ticking ∧ c ∉ ({[1%positive]} : gset Client))
             then [score_line (tick 7 {| homeScore := 3; awayScore := 1 |})]
             else [].
Proof.
  apply tick_outcome.
  - reflexivity.
  - vm_compute. apply perm_swap.
Defined.

Lemma score_line_determines_scores_witness :
  {| homeScore := 3; awayScore := 1 |} = {| homeScore := 3; awayScore := 1 |}.
Proof. apply score_line_determines_scores. reflexivity. Defined.
End ServerlessFacts.

(** ** The first message of a connection, in both programs *)

(** C5, as stated, fails.  In main.go a broadcast that runs between the
    registration of a client and the write of its initial state reaches the
    client first, and the initial state sent afterwards is no longer the
    state at registration.  In the serverless variant no initial state is
    sent at all: the first message comes from a simulator. *)
Lemma first_message_not_initial_state :
  (∃ σ σ',
     ScoreServer.run ScoreServer.init
       [ScoreServer.Accept 1; ScoreServer.ReadState 1;
        ScoreServer.WriteInitial 1 true] = Some σ
     ∧ ScoreServer.gameState σ = ScoreServer.gameState0
     ∧ ScoreServer.run σ ScoreServer.sched_registered_then_broadcast = Some σ'
     ∧ ScoreServer.received 2 (ScoreServer.trace σ')
       = [(ScoreServer.InBroadcast,
           ScoreServer.Marshal
             {| ScoreServer.ScoreA := 1; ScoreServer.ScoreB := 0 |});
          (ScoreServer.InServeWs,
           ScoreServer.Marshal
             {| ScoreServer.ScoreA := 1; ScoreServer.ScoreB := 0 |})]
     ∧ ¬ ScoreServer.snapshot_first 2 (ScoreServer.gameState σ) σ')
  ∧ Serverless.received 1 ∘ Serverless.trace
      <$> Serverless.run Serverless.init
            [Serverless.Accept 1; Serverless.Tick 0 0 [1%positive] ∅]
    = Some [Serverless.score_line
              {| Serverless.homeScore := 1; Serverless.awayScore := 0 |}].
Proof.
  split.
  - apply ScoreServerFacts.broadcast_before_initial_state.
  - apply ServerlessFacts.first_message_from_simulator.
Qed.

(** C5 (amended): a connection accepted by [serveWs] of main.go is
    registered and then sent one message, the serialization of the shared
    state; when no other goroutine runs between the registration and that
    write, the message equals the state at registration and is the first
    one the connection receives, every later one coming from a broadcast.
    [Handler] of the serverless variant registers a connection without
    sending it anything. *)
Theorem initial_state_first_when_uninterrupted
    (sched : list ScoreServer.Step) (σ : ScoreServer.Config) (c : Client)
    (ok : bool) :
  ScoreServer.run ScoreServer.init sched = Some σ ->
  ScoreServer.at_pc c σ = None ->
  ScoreServer.initial_state_first σ c ok ∧ Serverless.registers_silently.
Proof.
  intros Hrun Hpc. split.
  - by apply (ScoreServerFacts.serveWs_initial_state sched).
  - apply ServerlessFacts.Handler_registers_silently.
Qed.

Lemma initial_state_first_when_uninterrupted_witness :
  ScoreServer.initial_state_first ScoreServer.init 1 true
  ∧ Serverless.registers_silently.
Proof.
  apply (initial_state_first_when_uninterrupted [] ScoreServer.init 1 true);
    reflexivity.
Defined.
